(** * graph-annotaor: the file-upload store (src/file-upload/index.js)

    A shallow embedding of the upload pipeline, the cursor-driven query
    engine, the key lister and the name lookup, over a small model of the
    IndexedDB engine they run on, and of the two regular expressions the
    upload validation uses. *)

From Stdlib Require Import String Ascii.
From Stdlib Require Import List ZArith NArith Bool Lia Ring Sorted Permutation
  FinFun.
Import ListNotations.

Set Implicit Arguments.

(* ================================================================= *)
(** * Part I: definitions *)
(* ================================================================= *)

(** ** JavaScript strings

    A JavaScript string is a sequence of UTF-16 code units. *)

Definition code_unit := N.
Definition jsstring := list code_unit.

(** Literals: an ASCII string of the development as a JavaScript string. *)
Fixpoint js (s : string) : jsstring :=
  match s with
  | EmptyString => []
  | String c s' => N_of_ascii c :: js s'
  end.

Definition LF : code_unit := 10%N.
Definition CR : code_unit := 13%N.
Definition COMMA : code_unit := 44%N.
Definition FULL_STOP : code_unit := 46%N.
Definition HYPHEN : code_unit := 45%N.

Definition jsstring_eqb (a b : jsstring) : bool :=
  if list_eq_dec N.eq_dec a b then true else false.

(** [String.prototype.toLowerCase] on the Basic Latin block; code units
    outside [A-Z] are kept as they are.  The properties that rest on the
    case folding are stated for strings of that block ([basic_latin]
    below), where this is what the method does. *)
Definition lower_unit (c : code_unit) : code_unit :=
  if ((65 <=? c) && (c <=? 90))%N then (c + 32)%N else c.

Definition toLowerCase (s : jsstring) : jsstring := map lower_unit s.

(** [s.startsWith(p)] and [s.includes(p)]. *)
Fixpoint startsWith (s p : jsstring) : bool :=
  match p, s with
  | [], _ => true
  | _ :: _, [] => false
  | c :: p', d :: s' => if (c =? d)%N then startsWith s' p' else false
  end.

Fixpoint includes (s p : jsstring) : bool :=
  if startsWith s p then true
  else
    match s with
    | [] => false
    | _ :: s' => includes s' p
    end.

(** [s.substring(a, b)] for [0 <= a <= b]. *)
Definition substring (a b : nat) (s : jsstring) : jsstring :=
  firstn (b - a) (skipn a s).

(** Code-unit order on strings: the order of IndexedDB string keys and of
    [<] on two strings. *)
Fixpoint jsstring_ltb (a b : jsstring) : bool :=
  match a, b with
  | _, [] => false
  | [], _ :: _ => true
  | x :: a', y :: b' =>
      if (x <? y)%N then true
      else if (x =? y)%N then jsstring_ltb a' b' else false
  end.

(** ** Regular expressions

    The fragment of ECMAScript patterns the upload validation uses, with a
    backtracking matcher in continuation-passing style, as the ECMAScript
    semantics describes it.  A position in the input is the code unit
    before it (if any) and the remaining input: this is what [^] and [$]
    look at. *)

Module RegExp.

Inductive t : Type :=
| Char (c : code_unit)        (* a pattern character *)
| Dot                         (* [.] *)
| NotChar (c : code_unit)     (* [[^c]] *)
| Seq (r1 r2 : t)
| Alt (r1 r2 : t)             (* [r1|r2] *)
| Star (r : t)                (* [r*] *)
| Plus (r : t)                (* [r+] *)
| Opt (r : t)                 (* [r?] *)
| Bol                         (* [^] *)
| Eol.                        (* [$] *)

Record flags : Type := { ignoreCase : bool; multiline : bool }.

(** LineTerminator: LF, CR, LS (U+2028), PS (U+2029). *)
Definition is_line_terminator (c : code_unit) : bool :=
  ((c =? 10) || (c =? 13) || (c =? 8232) || (c =? 8233))%N.

Definition position : Type := (option code_unit * jsstring)%type.
Definition cont : Type := option code_unit -> jsstring -> bool.

(** [r*] after the first try: an iteration that consumes nothing is
    rejected, so [fuel = length s] iterations are enough. *)
Fixpoint star_loop (m : option code_unit -> jsstring -> cont -> bool)
    (fuel : nat) (prev : option code_unit) (s : jsstring) (k : cont) : bool :=
  match fuel with
  | O => k prev s
  | S fuel' =>
      if m prev s (fun p' s' =>
           if (length s' <? length s)%nat
           then star_loop m fuel' p' s' k else false)
      then true
      else k prev s
  end.

Section Matcher.
Variable fl : flags.

(** Canonicalize, without the [u] flag; the pattern characters of this
    program are all Basic Latin. *)
Definition canonicalize (c : code_unit) : code_unit :=
  if ignoreCase fl
  then if ((97 <=? c) && (c <=? 122))%N then (c - 32)%N else c
  else c.

Definition at_bol (prev : option code_unit) : bool :=
  match prev with
  | None => true
  | Some c => if multiline fl then is_line_terminator c else false
  end.

Definition at_eol (s : jsstring) : bool :=
  match s with
  | [] => true
  | c :: _ => if multiline fl then is_line_terminator c else false
  end.

Fixpoint run (r : t) (prev : option code_unit) (s : jsstring) (k : cont)
    {struct r} : bool :=
  match r with
  | Char c =>
      match s with
      | x :: s' =>
          if (canonicalize x =? canonicalize c)%N then k (Some x) s' else false
      | [] => false
      end
  | Dot =>
      match s with
      | x :: s' => if is_line_terminator x then false else k (Some x) s'
      | [] => false
      end
  | NotChar c =>
      match s with
      | x :: s' =>
          if (canonicalize x =? canonicalize c)%N then false else k (Some x) s'
      | [] => false
      end
  | Seq r1 r2 => run r1 prev s (fun p' s' => run r2 p' s' k)
  | Alt r1 r2 => if run r1 prev s k then true else run r2 prev s k
  | Star r' => star_loop (run r') (length s) prev s k
  | Plus r' =>
      run r' prev s (fun p' s' => star_loop (run r') (length s') p' s' k)
  | Opt r' => if run r' prev s k then true else k prev s
  | Bol => if at_bol prev then k prev s else false
  | Eol => if at_eol s then k prev s else false
  end.

(** RegExpBuiltinExec from [lastIndex = 0]: the first start position
    with a match. *)
Fixpoint search (r : t) (prev : option code_unit) (s : jsstring) : bool :=
  if run r prev s (fun _ _ => true) then true
  else
    match s with
    | [] => false
    | c :: s' => search r (Some c) s'
    end.

(** The declarative reading of the same fragment. *)
Inductive matches : t -> position -> position -> Prop :=
| MChar c x p s :
    canonicalize x = canonicalize c ->
    matches (Char c) (p, x :: s) (Some x, s)
| MDot x p s :
    is_line_terminator x = false ->
    matches Dot (p, x :: s) (Some x, s)
| MNotChar c x p s :
    canonicalize x <> canonicalize c ->
    matches (NotChar c) (p, x :: s) (Some x, s)
| MSeq r1 r2 a b c :
    matches r1 a b -> matches r2 b c -> matches (Seq r1 r2) a c
| MAltL r1 r2 a b : matches r1 a b -> matches (Alt r1 r2) a b
| MAltR r1 r2 a b : matches r2 a b -> matches (Alt r1 r2) a b
| MStarNil r a : matches (Star r) a a
| MStarCons r a b c :
    matches r a b -> (length (snd b) < length (snd a))%nat ->
    matches (Star r) b c -> matches (Star r) a c
| MPlus r a b c :
    matches r a b -> matches (Star r) b c -> matches (Plus r) a c
| MOptSome r a b : matches r a b -> matches (Opt r) a b
| MOptNone r a : matches (Opt r) a a
| MBol p s : at_bol p = true -> matches Bol (p, s) (p, s)
| MEol p s : at_eol s = true -> matches Eol (p, s) (p, s).

End Matcher.

(** The code unit before the position reached after reading [before]
    from a position whose previous code unit is [p]. *)
Definition previous (p : option code_unit) (before : jsstring)
    : option code_unit :=
  last (map Some before) p.

(** [regexp.test(s)] for a regular expression literal evaluated at the
    call (so [lastIndex] is 0). *)
Definition test (fl : flags) (r : t) (s : jsstring) : bool :=
  search fl r None s.

End RegExp.

(** [/\.(csv)$/i] *)
Definition extension_flags : RegExp.flags :=
  {| RegExp.ignoreCase := true; RegExp.multiline := false |}.

Definition extension_regexp : RegExp.t :=
  RegExp.Seq (RegExp.Char FULL_STOP)
    (RegExp.Seq
       (RegExp.Seq (RegExp.Char 99%N)
          (RegExp.Seq (RegExp.Char 115%N) (RegExp.Char 118%N)))
       RegExp.Eol).

(** [/^.+,[^,]+(?:\r?\n|.)*$/gm] *)
Definition format_flags : RegExp.flags :=
  {| RegExp.ignoreCase := false; RegExp.multiline := true |}.

Definition format_tail : RegExp.t :=
  RegExp.Alt (RegExp.Seq (RegExp.Opt (RegExp.Char CR)) (RegExp.Char LF)) RegExp.Dot.

Definition format_regexp : RegExp.t :=
  RegExp.Seq RegExp.Bol
    (RegExp.Seq (RegExp.Plus RegExp.Dot)
       (RegExp.Seq (RegExp.Char COMMA)
          (RegExp.Seq (RegExp.Plus (RegExp.NotChar COMMA))
             (RegExp.Seq (RegExp.Star format_tail) RegExp.Eol)))).

(** ** Records

    A [File] as the upload pipeline sees it: its metadata, and what
    [FileReader.readAsText] yields for it ([None] when the reader fires
    [onerror]).  A stored record is the object [uploadFile] builds. *)

Module File.
Record t : Type := {
  name : jsstring;
  size : Z;
  type : jsstring;
  lastModified : Z;
  text : option jsstring
}.
End File.

Module Upload.
Record t : Type := {
  name : jsstring;
  size : Z;
  type : jsstring;
  lastModified : Z;
  data : File.t;
  annotationCount : Z
}.
End Upload.

(** The values a property of a stored record can hold, and [<] on them.
    Both operands of a comparison in [sortFiles] come from the same
    property of two stored records, so operands of different kinds do not
    arise; two objects (the [data] files) and anything against [undefined]
    compare as neither smaller nor greater.  No property of a stored record
    holds a [Date]: [VDate] stands for the [instanceof Date] branch of
    [sortFiles]. *)
Inductive jsval : Type :=
| VUndefined
| VNumber (z : Z)
| VString (s : jsstring)
| VDate (time : Z)
| VObject.

Definition jsval_eqb (a b : jsval) : bool :=
  match a, b with
  | VUndefined, VUndefined => true
  | VNumber x, VNumber y => (x =? y)%Z
  | VString x, VString y => jsstring_eqb x y
  | VDate x, VDate y => (x =? y)%Z
  | _, _ => false
  end.

Definition js_lt (a b : jsval) : bool :=
  match a, b with
  | VNumber x, VNumber y => (x <? y)%Z
  | VString x, VString y => jsstring_ltb x y
  | VDate x, VDate y => (x <? y)%Z
  | _, _ => false
  end.

(** [record[field]], on the own properties of a stored record. *)
Definition get_property (u : Upload.t) (field : jsstring) : jsval :=
  if jsstring_eqb field (js "name") then VString (Upload.name u)
  else if jsstring_eqb field (js "size") then VNumber (Upload.size u)
  else if jsstring_eqb field (js "type") then VString (Upload.type u)
  else if jsstring_eqb field (js "lastModified") then VNumber (Upload.lastModified u)
  else if jsstring_eqb field (js "data") then VObject
  else if jsstring_eqb field (js "annotationCount") then VNumber (Upload.annotationCount u)
  else VUndefined.

(** Truthiness of an optional string argument ([undefined], [false] and the
    empty string are falsy). *)
Definition truthy (s : option jsstring) : bool :=
  match s with
  | None | Some [] => false
  | Some (_ :: _) => true
  end.

(** ** [Math.random()] and [Number.prototype.toString(36)]

    A draw of [Math.random()] is a double in [[0, 1)], that is a dyadic
    rational [(numerator mod 2^exponent) / 2^exponent].  [toString(36)]
    writes ["0"] for zero and otherwise ["0."] followed by the digits of
    the base-36 expansion, which ends because 2 divides 36.  The expansion
    is written in full here; an engine stops at the digits that identify
    the double, so that a draw with many fraction bits is printed shorter
    and rounded.  The two agree on the draws whose expansion ends within
    three digits ([short_draw] below); of the other draws only the length
    and the alphabet of the suffix are used. *)

Record unit_double : Type := { numerator : N; exponent : N }.

Definition digit36 (d : N) : code_unit :=
  if (d <? 10)%N then (48 + d)%N else (87 + d)%N.

Fixpoint fraction_digits (fuel : nat) (num den : N) : jsstring :=
  match fuel with
  | O => []
  | S fuel' =>
      if (num =? 0)%N then []
      else digit36 (36 * num / den) :: fraction_digits fuel' ((36 * num) mod den) den
  end.

Definition toString36 (x : unit_double) : jsstring :=
  let den := (2 ^ exponent x)%N in
  let num := (numerator x mod den)%N in
  if (num =? 0)%N then js "0"
  else js "0." ++ fraction_digits (S (N.to_nat (exponent x))) num den.

(** ** The IndexedDB engine *)

Section Assoc.
Variable A : Type.

Fixpoint assoc (k : jsstring) (l : list (jsstring * A)) : option A :=
  match l with
  | [] => None
  | (k', a) :: l' => if jsstring_eqb k k' then Some a else assoc k l'
  end.

Fixpoint assoc_set (k : jsstring) (a : A) (l : list (jsstring * A))
    : list (jsstring * A) :=
  match l with
  | [] => [(k, a)]
  | (k', a') :: l' =>
      if jsstring_eqb k k' then (k, a) :: l' else (k', a') :: assoc_set k a l'
  end.

(** Insertion of a new key in ascending key order. *)
Fixpoint insert_by_key (k : jsstring) (a : A) (l : list (jsstring * A))
    : list (jsstring * A) :=
  match l with
  | [] => [(k, a)]
  | (k', a') :: l' =>
      if jsstring_ltb k k' then (k, a) :: l else (k', a') :: insert_by_key k a l'
  end.
End Assoc.

Inductive exn : Type :=
| Error (message : string)          (* [new Error(message)] *)
| DOMException (name : string)      (* raised by the engine *)
| TypeError
| FileReaderError.                  (* [reader.error] *)

Inductive outcome (A : Type) : Type :=
| Returned (a : A)
| Thrown (e : exn).
Arguments Returned {A} a.
Arguments Thrown {A} e.

Module IDB.

Record index : Type := { keyPath : jsstring; unique : bool }.

(** An object store with out-of-line keys: its records in ascending key
    order (the order of a forward cursor and of [getAllKeys]) and its
    indexes by name. *)
Record object_store : Type := {
  records : list (jsstring * Upload.t);
  indexes : list (jsstring * index)
}.

(** A database that was never opened has version 0 and no store. *)
Record database : Type := {
  version : N;
  objectStores : list (jsstring * object_store)
}.

Definition absent : database := {| version := 0; objectStores := [] |}.

(** The key a record has in an index: the value at the key path, when it
    is a valid key. *)
Definition index_key (path : jsstring) (u : Upload.t) : option jsval :=
  match get_property u path with
  | VNumber z => Some (VNumber z)
  | VString s => Some (VString s)
  | VDate d => Some (VDate d)
  | VUndefined | VObject => None
  end.

Definition has_index_key (path : jsstring) (key : jsval)
    (entry : jsstring * Upload.t) : bool :=
  match index_key path (snd entry) with
  | Some k => jsval_eqb k key
  | None => false
  end.

(** Does adding [u] break a unique index of the store? *)
Definition violates_unique (st : object_store) (u : Upload.t) : bool :=
  existsb (fun ix : jsstring * index =>
    unique (snd ix) &&
    match index_key (keyPath (snd ix)) u with
    | Some k => existsb (has_index_key (keyPath (snd ix)) k) (records st)
    | None => false
    end) (indexes st).

(** [db.createObjectStore(name)] inside an upgrade. *)
Definition createObjectStore (db : database) (name : jsstring)
    : outcome database :=
  match assoc name (objectStores db) with
  | Some _ => Thrown (DOMException "ConstraintError")
  | None =>
      Returned {| version := version db;
                  objectStores := objectStores db ++
                    [(name, {| records := []; indexes := [] |})] |}
  end.

(** [store.createIndex(indexName, keyPath, { unique })] inside an upgrade,
    on the store [name]. *)
Definition createIndex (db : database) (name indexName path : jsstring)
    (uniq : bool) : outcome database :=
  match assoc name (objectStores db) with
  | None => Thrown (DOMException "InvalidStateError")
  | Some st =>
      match assoc indexName (indexes st) with
      | Some _ => Thrown (DOMException "ConstraintError")
      | None =>
          Returned {| version := version db;
                      objectStores := assoc_set name
                        {| records := records st;
                           indexes := indexes st ++
                             [(indexName, {| keyPath := path; unique := uniq |})] |}
                        (objectStores db) |}
      end
  end.

End IDB.

(** ** The world and the monad of asynchronous operations

    The world holds the databases by name, the source of [Math.random()]
    and the trace of the operations performed so far, newest first.  An
    [async] function is a state transformer that returns or throws (a
    rejected promise). *)

Inductive txmode : Type := ReadOnly | ReadWrite.

Inductive event : Type :=
| EvReadAsText
| EvOpenDB (dbName : jsstring) (dbVersion : N)
| EvTransaction (store : jsstring) (mode : txmode)
| EvGet (key : jsstring)
| EvAdd (key : jsstring)
| EvIndexGet (indexName key : jsstring)
| EvOpenCursor
| EvContinue
| EvGetAllKeys
| EvRandom
| EvConsoleLog (message : jsstring).

Record world : Type := {
  databases : list (jsstring * IDB.database);
  random : nat -> unit_double;
  draws : nat;
  trace : list event
}.

Definition M (A : Type) : Type := world -> outcome A * world.

Definition ret {A} (a : A) : M A := fun w => (Returned a, w).
Definition throw {A} (e : exn) : M A := fun w => (Thrown e, w).
Definition bind {A B} (c : M A) (k : A -> M B) : M B :=
  fun w =>
    match c w with
    | (Returned a, w') => k a w'
    | (Thrown e, w') => (Thrown e, w')
    end.

Notation "x <- c ;; k" := (bind c (fun x => k))
  (at level 61, c at next level, right associativity).
Notation "c ;;; k" := (bind c (fun _ => k))
  (at level 61, right associativity).

Definition with_event (e : event) (w : world) : world :=
  {| databases := databases w; random := random w;
     draws := draws w; trace := e :: trace w |}.

Definition log (e : event) : M unit := fun w => (Returned tt, with_event e w).

Definition the_database (dbName : jsstring) (w : world) : IDB.database :=
  match assoc dbName (databases w) with
  | Some db => db
  | None => IDB.absent
  end.

Definition set_database (dbName : jsstring) (db : IDB.database) : M unit :=
  fun w => (Returned tt,
            {| databases := assoc_set dbName db (databases w);
               random := random w; draws := draws w; trace := trace w |}).

Definition console_log (message : jsstring) : M unit := log (EvConsoleLog message).

(** [Math.random()] *)
Definition Math_random : M unit_double :=
  fun w => (Returned (random w (draws w)),
            {| databases := databases w; random := random w;
               draws := S (draws w); trace := EvRandom :: trace w |}).

(** [readFile(file)] of src/utils/index.js *)
Definition readFile (file : File.t) : M jsstring :=
  log EvReadAsText ;;;
  match File.text file with
  | Some content => ret content
  | None => throw FileReaderError
  end.

(** [openDB(dbName, dbVersion, { upgrade })] of the idb library.  The
    upgrade callback runs in a version-change transaction when the stored
    version is lower than the requested one; if it throws, the transaction
    is aborted and the database keeps its previous state. *)
Definition with_version (v : N) (db : IDB.database) : IDB.database :=
  {| IDB.version := v; IDB.objectStores := IDB.objectStores db |}.

Definition openDB (dbName : jsstring) (dbVersion : N)
    (upgrade : option (IDB.database -> outcome IDB.database)) : M jsstring :=
  log (EvOpenDB dbName dbVersion) ;;;
  fun w =>
    let db := the_database dbName w in
    if (dbVersion =? 0)%N then throw TypeError w
    else if (dbVersion <? IDB.version db)%N then
      throw (DOMException "VersionError") w
    else if (IDB.version db <? dbVersion)%N then
      match
        match upgrade with
        | Some callback => callback (with_version dbVersion db)
        | None => Returned (with_version dbVersion db)
        end
      with
      | Returned db' => (set_database dbName db' ;;; ret dbName) w
      | Thrown _ => throw (DOMException "AbortError") w
      end
    else ret dbName w.

(** [db.objectStoreNames.contains(name)] *)
Definition objectStoreNames_contains (db name : jsstring) : M bool :=
  fun w =>
    match assoc name (IDB.objectStores (the_database db w)) with
    | Some _ => ret true w
    | None => ret false w
    end.

(** A transaction over one store, and the store handle it gives. *)
Record transaction : Type := {
  tx_db : jsstring;
  tx_store : jsstring;
  tx_mode : txmode
}.

(** [db.transaction(storeName, mode)] *)
Definition db_transaction (db storeName : jsstring) (mode : txmode)
    : M transaction :=
  log (EvTransaction storeName mode) ;;;
  fun w =>
    match assoc storeName (IDB.objectStores (the_database db w)) with
    | Some _ => ret {| tx_db := db; tx_store := storeName; tx_mode := mode |} w
    | None => throw (DOMException "NotFoundError") w
    end.

(** [tx.objectStore(name)] *)
Definition objectStore (tx : transaction) (name : jsstring) : M transaction :=
  if jsstring_eqb name (tx_store tx) then ret tx
  else throw (DOMException "NotFoundError").

Definition with_store {A} (h : transaction) (k : IDB.object_store -> M A) : M A :=
  fun w =>
    match assoc (tx_store h) (IDB.objectStores (the_database (tx_db h) w)) with
    | Some st => k st w
    | None => throw (DOMException "InvalidStateError") w
    end.

Definition put_store (h : transaction) (st : IDB.object_store) : M unit :=
  fun w =>
    let db := the_database (tx_db h) w in
    set_database (tx_db h)
      {| IDB.version := IDB.version db;
         IDB.objectStores := assoc_set (tx_store h) st (IDB.objectStores db) |} w.

(** [store.get(key)]: the record, or [undefined]. *)
Definition store_get (h : transaction) (key : jsstring) : M (option Upload.t) :=
  log (EvGet key) ;;;
  with_store h (fun st => ret (assoc key (IDB.records st))).

(** [store.add(value, key)]: fails when the key is taken or a unique index
    would hold the same key twice. *)
Definition store_add (h : transaction) (value : Upload.t) (key : jsstring)
    : M unit :=
  log (EvAdd key) ;;;
  with_store h (fun st =>
    match tx_mode h with
    | ReadOnly => throw (DOMException "ReadOnlyError")
    | ReadWrite =>
        match assoc key (IDB.records st) with
        | Some _ => throw (DOMException "ConstraintError")
        | None =>
            if IDB.violates_unique st value
            then throw (DOMException "ConstraintError")
            else put_store h
                   {| IDB.records := insert_by_key key value (IDB.records st);
                      IDB.indexes := IDB.indexes st |}
        end
    end).

(** [store.index(indexName)] and [index.get(key)]. *)
Record index_handle : Type := {
  ix_store : transaction;
  ix_name : jsstring;
  ix_keyPath : jsstring
}.

Definition store_index (h : transaction) (indexName : jsstring)
    : M index_handle :=
  with_store h (fun st =>
    match assoc indexName (IDB.indexes st) with
    | Some ix =>
        ret {| ix_store := h; ix_name := indexName;
               ix_keyPath := IDB.keyPath ix |}
    | None => throw (DOMException "NotFoundError")
    end).

Definition index_get (ix : index_handle) (key : jsstring)
    : M (option Upload.t) :=
  log (EvIndexGet (ix_name ix) key) ;;;
  with_store (ix_store ix) (fun st =>
    ret (option_map snd
           (find (IDB.has_index_key (ix_keyPath ix) (VString key))
                 (IDB.records st)))).

(** [store.getAllKeys()] *)
Definition store_getAllKeys (h : transaction) : M (list jsstring) :=
  log EvGetAllKeys ;;;
  with_store h (fun st => ret (map fst (IDB.records st))).

(** A forward cursor is the list of the records from its position on;
    [null] is the empty list, [cursor.value] the head's record and
    [cursor.continue()] the tail. *)
Definition cursor : Type := list (jsstring * Upload.t).

Definition store_openCursor (h : transaction) : M cursor :=
  log EvOpenCursor ;;;
  with_store h (fun st => ret (IDB.records st)).

(** ** The program: src/file-upload/index.js *)

Definition MAX_SIZE : Z := 200 * 1024 * 1024.

Definition quoted (s : jsstring) : jsstring := [34%N] ++ s ++ [34%N].

(** The [upgrade] callback of [uploadFile]. *)
Definition uploadFile_upgrade (objectStoreName : jsstring)
    (db : IDB.database) : outcome IDB.database :=
  match IDB.createObjectStore db objectStoreName with
  | Returned db' =>
      IDB.createIndex db' objectStoreName (js "nameIndex") (js "name") true
  | Thrown e => Thrown e
  end.

Definition with_name (upload : Upload.t) (newName : jsstring) : Upload.t :=
  {| Upload.name := newName;
     Upload.size := Upload.size upload;
     Upload.type := Upload.type upload;
     Upload.lastModified := Upload.lastModified upload;
     Upload.data := Upload.data upload;
     Upload.annotationCount := Upload.annotationCount upload |}.

Definition uploadFile (file : option File.t) (dbName : jsstring)
    (dbVersion : N) (objectStoreName : jsstring) : M Upload.t :=
  match file with
  | None => throw (Error "No file selected")
  | Some file =>
  if (File.size file >? MAX_SIZE)%Z then throw (Error "File size exceeds 200 MB")
  else if negb (RegExp.test extension_flags extension_regexp (File.name file))
  then throw (Error "Invalid file extension")
  else
    fileContent <- readFile file ;;
    if negb (RegExp.test format_flags format_regexp fileContent)
    then throw (Error "Invalid file format")
    else
      db <- openDB dbName dbVersion (Some (uploadFile_upgrade objectStoreName)) ;;
      let upload :=
        {| Upload.name := File.name file;
           Upload.size := File.size file;
           Upload.type := File.type file;
           Upload.lastModified := File.lastModified file;
           Upload.data := file;
           Upload.annotationCount := 0 |} in
      tx <- db_transaction db objectStoreName ReadWrite ;;
      uploadsStore <- objectStore tx objectStoreName ;;
      existingFile <- store_get uploadsStore (File.name file) ;;
      upload <-
        match existingFile with
        | Some _ =>
            r <- Math_random ;;
            let randomString := substring 2 5 (toString36 r) in
            let newName := File.name file ++ [HYPHEN] ++ randomString in
            console_log (js "File name " ++ quoted (File.name file) ++
                         js " already exists, renamed to " ++ quoted newName) ;;;
            ret (with_name upload newName)
        | None => ret upload
        end ;;
      store_add uploadsStore upload (Upload.name upload) ;;;
      ret upload
  end.

(** The two stages of [uploadFile] after the validations, named for the
    proofs: the record it builds, the check-then-write on the open store,
    and the opening before it. *)
Definition new_upload (file : File.t) : Upload.t :=
  {| Upload.name := File.name file;
     Upload.size := File.size file;
     Upload.type := File.type file;
     Upload.lastModified := File.lastModified file;
     Upload.data := file;
     Upload.annotationCount := 0 |}.

Definition renamed (file : File.t) (r : unit_double) : jsstring :=
  File.name file ++ [HYPHEN] ++ substring 2 5 (toString36 r).

(** The record the check-then-write stage stores, from the record it finds
    under the file name. *)
Definition resolved (file : File.t) (existing : option Upload.t)
    (r : unit_double) : Upload.t :=
  match existing with
  | Some _ => with_name (new_upload file) (renamed file r)
  | None => new_upload file
  end.

Definition uploadFile_write (file : File.t) (db objectStoreName : jsstring)
    : M Upload.t :=
  tx <- db_transaction db objectStoreName ReadWrite ;;
  uploadsStore <- objectStore tx objectStoreName ;;
  existingFile <- store_get uploadsStore (File.name file) ;;
  upload <-
    match existingFile with
    | Some _ =>
        r <- Math_random ;;
        console_log (js "File name " ++ quoted (File.name file) ++
                     js " already exists, renamed to " ++
                     quoted (renamed file r)) ;;;
        ret (with_name (new_upload file) (renamed file r))
    | None => ret (new_upload file)
    end ;;
  store_add uploadsStore upload (Upload.name upload) ;;;
  ret upload.

Definition uploadFile_store (file : File.t) (dbName : jsstring)
    (dbVersion : N) (objectStoreName : jsstring) : M Upload.t :=
  db <- openDB dbName dbVersion (Some (uploadFile_upgrade objectStoreName)) ;;
  uploadFile_write file db objectStoreName.

(** An error of the engine or of the reader, as opposed to an [Error] the
    program throws itself. *)
Definition engine_error (e : exn) : Prop :=
  match e with
  | Error _ => False
  | _ => True
  end.

Definition throws_only {A} (P : exn -> Prop) (c : M A) : Prop :=
  forall w e w', c w = (Thrown e, w') -> P e.

Definition createCursor (db objectStoreName : jsstring) : M cursor :=
  tx <- db_transaction db objectStoreName ReadOnly ;;
  uploadsStore <- objectStore tx objectStoreName ;;
  store_openCursor uploadsStore.

(** The test of the loop body of [filterFiles]. *)
Definition name_matches (searchQuery : option jsstring) (upload : Upload.t)
    : bool :=
  match searchQuery with
  | None | Some [] => true
  | Some q => includes (toLowerCase (Upload.name upload)) (toLowerCase q)
  end.

Fixpoint filterFiles_loop (cursor : cursor) (searchQuery : option jsstring)
    (limit count : Z) (items : list Upload.t) : M (list Upload.t) :=
  match cursor with
  | [] => ret items
  | (_, upload) :: next =>
      if (count <? limit)%Z then
        let items :=
          if name_matches searchQuery upload then items ++ [upload] else items in
        log EvContinue ;;;
        filterFiles_loop next searchQuery limit (count + 1) items
      else ret items
  end.

Definition filterFiles (cursor : cursor) (searchQuery : option jsstring)
    (limit : Z) : M (list Upload.t) :=
  filterFiles_loop cursor searchQuery limit 0 [].

(** The comparison function [sortFiles] passes to [Array.prototype.sort]. *)
Definition compareFiles (sortField sortOrder : jsstring)
    (fileA fileB : Upload.t) : Z :=
  let valA := get_property fileA sortField in
  let valB := get_property fileB sortField in
  let '(valA, valB) :=
    match valA, valB with
    | VDate a, VDate b => (VNumber a, VNumber b)
    | _, _ => (valA, valB)
    end in
  if jsstring_eqb sortOrder (js "asc")
  then if js_lt valA valB then (-1)%Z else if js_lt valB valA then 1%Z else 0%Z
  else if js_lt valB valA then (-1)%Z else if js_lt valA valB then 1%Z else 0%Z.

(** [Array.prototype.sort(compare)]: a stable sort. *)
Section ArraySort.
Variable A : Type.
Variable compare : A -> A -> Z.

Fixpoint insert_sorted (x : A) (l : list A) : list A :=
  match l with
  | [] => [x]
  | y :: l' => if (0 <? compare x y)%Z then y :: insert_sorted x l' else x :: l
  end.

Definition array_sort (l : list A) : list A := fold_right insert_sorted [] l.
End ArraySort.

Definition sortFiles (files : list Upload.t) (sortField sortOrder : jsstring)
    : list Upload.t :=
  array_sort (compareFiles sortField sortOrder) files.

(** [Array.prototype.slice(start, end)] on integer arguments. *)
Definition array_slice {A} (l : list A) (start finish : Z) : list A :=
  let len := Z.of_nat (length l) in
  let k := if (start <? 0)%Z then Z.max (len + start) 0 else Z.min start len in
  let final := if (finish <? 0)%Z then Z.max (len + finish) 0 else Z.min finish len in
  firstn (Z.to_nat (final - k)) (skipn (Z.to_nat k) l).

Definition paginateFiles (files : list Upload.t) (offset limit : Z)
    : list Upload.t :=
  let startIndex := if (offset <? 0)%Z then 0%Z else offset in
  let endIndex :=
    if (startIndex + limit >? Z.of_nat (length files))%Z
    then Z.of_nat (length files) else (startIndex + limit)%Z in
  array_slice files startIndex endIndex.

Definition fetchFiles (dbName : jsstring) (dbVersion : N)
    (objectStoreName : jsstring) (searchQuery sortField : option jsstring)
    (sortOrder : jsstring) (offset limit : Z) : M (list Upload.t) :=
  db <- openDB dbName dbVersion None ;;
  cursor <- createCursor db objectStoreName ;;
  files <- filterFiles cursor searchQuery (limit + offset) ;;
  let files :=
    match sortField with
    | Some field => if truthy sortField then sortFiles files field sortOrder else files
    | None => files
    end in
  ret (paginateFiles files offset limit).

Definition getKeys (dbName : jsstring) (dbVersion : N)
    (objectStoreName : jsstring) : M (list jsstring) :=
  db <- openDB dbName dbVersion None ;;
  known <- objectStoreNames_contains db objectStoreName ;;
  if negb known then ret []
  else
    tx <- db_transaction db objectStoreName ReadOnly ;;
    store <- objectStore tx objectStoreName ;;
    store_getAllKeys store.

(** What [fetchFileByName] resolves to: [undefined], [null] or a record. *)
Inductive lookup : Type :=
| Undefined
| Null
| Found (file : Upload.t).

Record config : Type := {
  dbName : jsstring;
  dbVersion : N;
  objectStoreName : jsstring
}.

Definition fetchFileByName (name : option jsstring) (cfg : config) : M lookup :=
  match name with
  | None | Some [] => ret Undefined
  | Some name =>
      db <- openDB (dbName cfg) (dbVersion cfg)
              (Some (fun db => IDB.createObjectStore db (objectStoreName cfg))) ;;
      tx <- db_transaction db (objectStoreName cfg) ReadOnly ;;
      uploadsStore <- objectStore tx (objectStoreName cfg) ;;
      index <- store_index uploadsStore (js "nameIndex") ;;
      file <- index_get index name ;;
      match file with
      | Some file => ret (Found file)
      | None => console_log (js "File not found") ;;; ret Null
      end
  end.

(** A world in which no database was ever opened. *)
Definition fresh_world (rnd : nat -> unit_double) : world :=
  {| databases := []; random := rnd; draws := 0; trace := [] |}.

(** ** The words of the specification

    The predicates the properties below are stated with. *)

(** The four validation failures and the errors [uploadFile] throws. *)
Inductive reason : Type :=
| missing_file
| oversized
| bad_extension
| bad_content.

Definition ValidationError (r : reason) : exn :=
  match r with
  | missing_file => Error "No file selected"
  | oversized => Error "File size exceeds 200 MB"
  | bad_extension => Error "Invalid file extension"
  | bad_content => Error "Invalid file format"
  end.

(** The file name ends in [.csv], in any letter case. *)
Definition has_csv_extension (name : jsstring) : bool :=
  jsstring_eqb (toLowerCase (skipn (length name - 4) name)) (js ".csv").

(** Each validation on its own, and the order they are listed in. *)
Definition fails (file : option File.t) (r : reason) : bool :=
  match file, r with
  | None, missing_file => true
  | None, _ => false
  | Some _, missing_file => false
  | Some f, oversized => (MAX_SIZE <? File.size f)%Z
  | Some f, bad_extension => negb (has_csv_extension (File.name f))
  | Some f, bad_content =>
      match File.text f with
      | Some content => negb (RegExp.test format_flags format_regexp content)
      | None => false
      end
  end.

Definition validations : list reason :=
  [missing_file; oversized; bad_extension; bad_content].

Definition first_failure (file : option File.t) : option reason :=
  find (fails file) validations.

(** The trace a failed validation leaves: only [bad-content] has read the
    file. *)
Definition after_validation (r : reason) (w : world) : world :=
  match r with
  | bad_content => with_event EvReadAsText w
  | _ => w
  end.

(** The lines of a text, and a line with a comma separating a non-empty
    prefix from a non-empty comma-free value. *)
Fixpoint split_lines (s : jsstring) : list jsstring :=
  match s with
  | [] => [[]]
  | c :: s' =>
      if RegExp.is_line_terminator c then [] :: split_lines s'
      else
        match split_lines s' with
        | line :: rest => (c :: line) :: rest
        | [] => [[c]]
        end
  end.

Definition separating_comma (line : jsstring) : Prop :=
  exists prefix value,
    line = prefix ++ COMMA :: value /\
    prefix <> [] /\ value <> [] /\ ~ In COMMA value.

(** A position at the start of a line: at the start of the text or just
    after a line terminator. *)
Definition line_start (before : jsstring) : Prop :=
  before = [] \/
  exists b c, before = b ++ [c] /\ RegExp.is_line_terminator c = true.

(** What the format check looks for: a line start followed by a non-empty
    run of code units that are not line terminators, a comma, and one more
    code unit that is not a comma. *)
Definition comma_after_line_start (content : jsstring) : Prop :=
  exists before field next rest,
    content = before ++ field ++ COMMA :: next :: rest /\
    line_start before /\
    field <> [] /\
    Forall (fun c => RegExp.is_line_terminator c = false) field /\
    next <> COMMA.

(** The bounded filter in the words of the specification: the scan stops
    once [wanted] matching records have been collected. *)
Fixpoint collect_matches (cursor : cursor) (searchQuery : option jsstring)
    (wanted : nat) : list Upload.t :=
  match cursor, wanted with
  | [], _ => []
  | _, O => []
  | (_, upload) :: next, S wanted' =>
      if name_matches searchQuery upload
      then upload :: collect_matches next searchQuery wanted'
      else collect_matches next searchQuery wanted
  end.

(** The page of the specification: skip [offset] items, then keep at most
    [limit] items (none for a count that is not positive). *)
Definition page {A} (files : list A) (offset limit : Z) : list A :=
  firstn (Z.to_nat limit) (skipn (Z.to_nat offset) files).

(** Lowercase base-36 digits. *)
Definition is_digit36 (c : code_unit) : bool :=
  (((48 <=? c) && (c <=? 57)) || ((97 <=? c) && (c <=? 122)))%N.

(** The records of a store of a database of the world (none when the
    database or the store does not exist). *)
Definition stored_records (w : world) (dbName storeName : jsstring)
    : list (jsstring * Upload.t) :=
  match assoc storeName (IDB.objectStores (the_database dbName w)) with
  | Some st => IDB.records st
  | None => []
  end.

(** The store gateway is usable at a version: the version is a valid one
    and either the upgrade is still to run and will create the store, or
    the database is at that version and has the store, with at most the
    indexes this program creates (on [name]). *)
Definition gateway_ready (w : world) (dbName : jsstring) (dbVersion : N)
    (storeName : jsstring) : Prop :=
  (0 < dbVersion)%N /\
  let db := the_database dbName w in
  match assoc storeName (IDB.objectStores db) with
  | None => (IDB.version db < dbVersion)%N
  | Some st =>
      IDB.version db = dbVersion /\
      forall n ix, In (n, ix) (IDB.indexes st) -> IDB.keyPath ix = js "name"
  end.

(** The database opens at a version without an upgrade callback. *)
Definition opens (w : world) (dbName : jsstring) (dbVersion : N) : Prop :=
  (0 < dbVersion)%N /\ (IDB.version (the_database dbName w) <= dbVersion)%N.

(** Example data. *)
Definition csv (name : string) (size : Z) (content : jsstring) : File.t :=
  {| File.name := js name; File.size := size; File.type := js "text/csv";
     File.lastModified := 0; File.text := Some content |}.

Definition speed_csv : File.t :=
  csv "speed.csv" 41
    (js "timestamp,speedometer_x,speedometer_y" ++ [LF] ++ js "1,2,3" ++ [LF]).

Definition one_half : unit_double := {| numerator := 1; exponent := 1 |}.
Definition zero : unit_double := {| numerator := 0; exponent := 0 |}.

Definition raw_data : jsstring := js "raw-data".
Definition csv_store : jsstring := js "csv-store".

Definition stored (name : string) (size : Z) : Upload.t :=
  {| Upload.name := js name; Upload.size := size; Upload.type := js "text/csv";
     Upload.lastModified := 0; Upload.data := csv name size (js "t,v");
     Upload.annotationCount := 0 |}.

(** ** src/data-parsing/index.js *)

(** What [String.prototype.trim] strips: WhiteSpace and LineTerminator. *)
Definition is_white_space (c : code_unit) : bool :=
  ((c =? 9) || (c =? 10) || (c =? 11) || (c =? 12) || (c =? 13) ||
   (c =? 32) || (c =? 160) || (c =? 5760) ||
   ((8192 <=? c) && (c <=? 8202)) ||
   (c =? 8232) || (c =? 8233) || (c =? 8239) || (c =? 8287) ||
   (c =? 12288) || (c =? 65279))%N.

Fixpoint trimStart (s : jsstring) : jsstring :=
  match s with
  | [] => []
  | c :: s' => if is_white_space c then trimStart s' else s
  end.

Definition trim (s : jsstring) : jsstring :=
  rev (trimStart (rev (trimStart s))).

(** [s.split(sep)] for a separator of one code unit. *)
Fixpoint split (sep : code_unit) (s : jsstring) : list jsstring :=
  match s with
  | [] => [[]]
  | c :: s' =>
      if (c =? sep)%N then [] :: split sep s'
      else
        match split sep s' with
        | piece :: pieces => (c :: piece) :: pieces
        | [] => [[c]]
        end
  end.

(** [array.includes(x)] on an array of strings. *)
Definition Array_includes (array : list jsstring) (x : jsstring) : bool :=
  existsb (jsstring_eqb x) array.

(** The first loop of [parseCSV], from column [i] on. *)
Fixpoint keepColumns_from (i : nat) (fields selectedFields : list jsstring)
    : list nat :=
  match fields with
  | [] => []
  | field :: fields' =>
      if Array_includes selectedFields field
      then i :: keepColumns_from (S i) fields' selectedFields
      else keepColumns_from (S i) fields' selectedFields
  end.

(** A cell is a string, or [undefined] ([None]) when the row has no such
    column. *)
Definition parseCSV (csvData : jsstring) (selectedFields : list jsstring)
    : list (list (option jsstring)) :=
  let rows := split LF (trim csvData) in
  let fields := split COMMA (hd [] rows) in
  let keepColumns := keepColumns_from 0 fields selectedFields in
  map (fun line =>
         let row := split COMMA line in
         map (fun j => nth_error row j) keepColumns)
      (tl rows).

(** ** Predicates of the further properties *)

(** The records of a store are in strictly ascending key order. *)
Definition keys_ascending (A : Type) (l : list (jsstring * A)) : Prop :=
  StronglySorted (fun a b => jsstring_ltb (fst a) (fst b) = true) l.

(** Every record is stored under its name. *)
Definition keys_are_names (l : list (jsstring * Upload.t)) : Prop :=
  forall k u, In (k, u) l -> Upload.name u = k.

(** An operation that leaves the records of every store as they are,
    whatever it returns or throws. *)
Definition keeps_records (A : Type) (c : M A) : Prop :=
  forall w db store,
    stored_records (snd (c w)) db store = stored_records w db store.

(** The records of a store of a database (none when it has no such store). *)
Definition records_in (db : IDB.database) (store : jsstring)
    : list (jsstring * Upload.t) :=
  match assoc store (IDB.objectStores db) with
  | Some st => IDB.records st
  | None => []
  end.

(** An upgrade callback that keeps the records of every store. *)
Definition upgrade_keeps_records
    (callback : IDB.database -> outcome IDB.database) : Prop :=
  forall db db' store,
    callback db = Returned db' -> records_in db' store = records_in db store.

(** The store the upgrade of [uploadFile] creates. *)
Definition created_store : IDB.object_store :=
  {| IDB.records := [];
     IDB.indexes :=
       [(js "nameIndex", {| IDB.keyPath := js "name"; IDB.unique := true |})] |}.

(** A file that passes the four validations, with its content. *)
Definition valid_file (f : File.t) (content : jsstring) : Prop :=
  (File.size f <= MAX_SIZE)%Z /\
  has_csv_extension (File.name f) = true /\
  File.text f = Some content /\
  RegExp.test format_flags format_regexp content = true.

(** Example data: a store with two records. *)
Definition two_records : list (jsstring * Upload.t) :=
  [(js "a.csv", stored "a.csv" 10); (js "b.csv", stored "b.csv" 20)].

Definition sample_world : world :=
  {| databases :=
       [(raw_data,
         {| IDB.version := 1;
            IDB.objectStores :=
              [(csv_store,
                {| IDB.records := two_records;
                   IDB.indexes := IDB.indexes created_store |})] |})];
     random := fun _ => one_half; draws := 0; trace := [] |}.

Definition sample_store : IDB.object_store :=
  {| IDB.records := two_records; IDB.indexes := IDB.indexes created_store |}.

Definition sample_config : config :=
  {| dbName := raw_data; dbVersion := 1; objectStoreName := csv_store |}.

(** The world after [speed.csv] was uploaded twice to a database that did
    not exist, every draw of [Math.random()] being [0.5]: the store holds
    [speed.csv] and [speed.csv-i]. *)
Definition twice_uploaded : world :=
  snd (uploadFile (Some speed_csv) raw_data 1 csv_store
         (snd (uploadFile (Some speed_csv) raw_data 1 csv_store
                 (fresh_world (fun _ => one_half))))).

Definition speed_content : jsstring :=
  js "timestamp,speedometer_x,speedometer_y" ++ [LF] ++ js "1,2,3" ++ [LF].

Definition small_table : jsstring :=
  js "a,b,c" ++ [LF] ++ js "1,2,3" ++ [LF] ++ js "4,5,6".

(** The second stage of [fetchFiles]. *)
Definition sorted_if (sortField : option jsstring) (sortOrder : jsstring)
    (files : list Upload.t) : list Upload.t :=
  match sortField with
  | Some field => if truthy sortField then sortFiles files field sortOrder else files
  | None => files
  end.

(** The store has the index [nameIndex] on [name]. *)
Definition has_name_index (st : IDB.object_store) : Prop :=
  exists ix, assoc (js "nameIndex") (IDB.indexes st) = Some ix /\
             IDB.keyPath ix = js "name".

(** The number a record holds in a numeric property. *)
Definition number_of (field : jsstring) (u : Upload.t) : option Z :=
  match get_property u field with
  | VNumber z => Some z
  | _ => None
  end.

(** A string of the Basic Latin block (ASCII), and a search query that is
    absent or such a string. *)
Definition basic_latin (s : jsstring) : Prop :=
  Forall (fun c => (c < 128)%N) s.

Definition basic_latin_query (searchQuery : option jsstring) : Prop :=
  match searchQuery with
  | Some q => basic_latin q
  | None => True
  end.

(** A draw that is a multiple of 1/64: its base-36 expansion ends within
    three digits (36^3 is a multiple of 64), every shorter digit string is
    another number by 36^-3 at least, and [toString(36)] prints the
    expansion in full. *)
Definition short_draw (r : unit_double) : Prop := (exponent r <= 6)%N.

(** [substring(2, 5)] keeps all the digits after ["0."]. *)
Definition suffix_is_whole (r : unit_double) : bool :=
  jsstring_eqb (skipn 2 (toString36 r)) (substring 2 5 (toString36 r)).

(* ================================================================= *)
(** * Part II: properties *)
(* ================================================================= *)

(** ** Strings *)

Lemma jsstring_eqb_eq (a b : jsstring) : jsstring_eqb a b = true <-> a = b.
Proof.
  unfold jsstring_eqb. destruct (list_eq_dec N.eq_dec a b); split; congruence.
Qed.

Lemma jsstring_eqb_refl (a : jsstring) : jsstring_eqb a a = true.
Proof. now apply jsstring_eqb_eq. Qed.

Lemma jsstring_eqb_neq (a b : jsstring) : jsstring_eqb a b = false <-> a <> b.
Proof.
  unfold jsstring_eqb. destruct (list_eq_dec N.eq_dec a b); split; congruence.
Qed.

(** ** The matcher against the declarative reading *)

Section RegExpFacts.
Import RegExp.
Variable fl : flags.

Lemma matches_consumes r a b :
  matches fl r a b -> exists consumed, snd a = consumed ++ snd b.
Proof.
  induction 1; simpl in *;
    try (now exists [x]); try (now exists []); auto.
  - destruct IHmatches1 as [u Hu], IHmatches2 as [v Hv].
    exists (u ++ v). now rewrite Hu, Hv, app_assoc.
  - destruct IHmatches1 as [u Hu], IHmatches2 as [v Hv].
    exists (u ++ v). now rewrite Hu, Hv, app_assoc.
  - destruct IHmatches1 as [u Hu], IHmatches2 as [v Hv].
    exists (u ++ v). now rewrite Hu, Hv, app_assoc.
Qed.

Lemma star_loop_spec m r :
  (forall p s k,
      m p s k = true <->
      exists p' s', matches fl r (p, s) (p', s') /\ k p' s' = true) ->
  forall fuel p s k,
    (length s <= fuel)%nat ->
    star_loop m fuel p s k = true <->
    exists p' s', matches fl (Star r) (p, s) (p', s') /\ k p' s' = true.
Proof.
  intros Hm. induction fuel as [|fuel IH]; intros p s k Hlen; simpl.
  - split.
    + intros Hk. exists p, s. split; [constructor | exact Hk].
    + intros (p' & s' & Hst & Hk). inversion Hst; subst; [exact Hk|].
      simpl in *. lia.
  - destruct (m p s _) eqn:E.
    + split; [intros _ | reflexivity].
      apply Hm in E. destruct E as (p1 & s1 & H1 & Hc).
      destruct (Nat.ltb_spec (length s1) (length s)); [|discriminate].
      apply IH in Hc; [|lia]. destruct Hc as (p' & s' & Hst & Hk).
      exists p', s'. split; [|exact Hk].
      eapply MStarCons; [exact H1 | simpl; lia | exact Hst].
    + split.
      * intros Hk. exists p, s. split; [constructor | exact Hk].
      * intros (p' & s' & Hst & Hk). inversion Hst; subst; [exact Hk|].
        destruct b as [p1 s1]. simpl in *. exfalso.
        enough (Ht : m p s (fun p'0 s'0 =>
                   if (length s'0 <? length s)%nat
                   then star_loop m fuel p'0 s'0 k else false) = true)
          by congruence.
        apply Hm. exists p1, s1. split; [assumption|].
        destruct (Nat.ltb_spec (length s1) (length s)); [|lia].
        apply IH; [lia|]. now exists p', s'.
Qed.

Theorem run_spec r : forall p s k,
  run fl r p s k = true <->
  exists p' s', matches fl r (p, s) (p', s') /\ k p' s' = true.
Proof.
  induction r as [c| |c|r1 IH1 r2 IH2|r1 IH1 r2 IH2|r IH|r IH|r IH| |];
    intros p s k; simpl.
  - destruct s as [|x s]; [split; [discriminate|]|].
    + intros (p' & s' & Hm & _). inversion Hm.
    + destruct (N.eqb_spec (canonicalize fl x) (canonicalize fl c)).
      * split.
        -- intros Hk. exists (Some x), s. split; [now constructor|exact Hk].
        -- intros (p' & s' & Hm & Hk). now inversion Hm; subst.
      * split; [discriminate|].
        intros (p' & s' & Hm & Hk). inversion Hm; subst. contradiction.
  - destruct s as [|x s]; [split; [discriminate|]|].
    + intros (p' & s' & Hm & _). inversion Hm.
    + destruct (is_line_terminator x) eqn:E.
      * split; [discriminate|].
        intros (p' & s' & Hm & Hk). inversion Hm; subst. congruence.
      * split.
        -- intros Hk. exists (Some x), s. split; [now constructor|exact Hk].
        -- intros (p' & s' & Hm & Hk). now inversion Hm; subst.
  - destruct s as [|x s]; [split; [discriminate|]|].
    + intros (p' & s' & Hm & _). inversion Hm.
    + destruct (N.eqb_spec (canonicalize fl x) (canonicalize fl c)).
      * split; [discriminate|].
        intros (p' & s' & Hm & Hk). inversion Hm; subst. contradiction.
      * split.
        -- intros Hk. exists (Some x), s. split; [now constructor|exact Hk].
        -- intros (p' & s' & Hm & Hk). now inversion Hm; subst.
  - rewrite IH1. split.
    + intros (p1 & s1 & H1 & H2). apply IH2 in H2.
      destruct H2 as (p2 & s2 & H2 & Hk).
      exists p2, s2. split; [|exact Hk]. eapply MSeq; eauto.
    + intros (p2 & s2 & Hm & Hk). inversion Hm; subst.
      destruct b as [p1 s1]. exists p1, s1. split; [assumption|].
      apply IH2. now exists p2, s2.
  - destruct (run fl r1 p s k) eqn:E1.
    + split; [intros _|reflexivity].
      apply IH1 in E1. destruct E1 as (p' & s' & Hm & Hk).
      exists p', s'. split; [now apply MAltL|exact Hk].
    + rewrite IH2. split.
      * intros (p' & s' & Hm & Hk). exists p', s'. split; [now apply MAltR|exact Hk].
      * intros (p' & s' & Hm & Hk). inversion Hm; subst.
        -- exfalso. enough (run fl r1 p s k = true) by congruence.
           apply IH1. now exists p', s'.
        -- now exists p', s'.
  - apply star_loop_spec; [exact IH | lia].
  - rewrite IH. split.
    + intros (p1 & s1 & H1 & Hs).
      apply (star_loop_spec (run fl r) IH) in Hs; [|lia].
      destruct Hs as (p' & s' & Hs & Hk).
      exists p', s'. split; [|exact Hk]. eapply MPlus; eauto.
    + intros (p' & s' & Hm & Hk). inversion Hm; subst.
      destruct b as [p1 s1]. exists p1, s1. split; [assumption|].
      apply (star_loop_spec (run fl r) IH); [lia|]. now exists p', s'.
  - destruct (run fl r p s k) eqn:E.
    + split; [intros _|reflexivity].
      apply IH in E. destruct E as (p' & s' & Hm & Hk).
      exists p', s'. split; [now apply MOptSome|exact Hk].
    + split.
      * intros Hk. exists p, s. split; [apply MOptNone|exact Hk].
      * intros (p' & s' & Hm & Hk). inversion Hm; subst; [|exact Hk].
        exfalso. enough (run fl r p s k = true) by congruence.
        apply IH. now exists p', s'.
  - destruct (at_bol fl p) eqn:E.
    + split.
      * intros Hk. exists p, s. split; [now constructor|exact Hk].
      * intros (p' & s' & Hm & Hk). now inversion Hm; subst.
    + split; [discriminate|].
      intros (p' & s' & Hm & Hk). inversion Hm; subst. congruence.
  - destruct (at_eol fl s) eqn:E.
    + split.
      * intros Hk. exists p, s. split; [now constructor|exact Hk].
      * intros (p' & s' & Hm & Hk). now inversion Hm; subst.
    + split; [discriminate|].
      intros (p' & s' & Hm & Hk). inversion Hm; subst. congruence.
Qed.

Lemma last_cons_default (A : Type) (l : list A) : forall x d,
  last (x :: l) d = last l x.
Proof.
  induction l as [|y l IH]; intros x d; [reflexivity|].
  change (last (x :: y :: l) d) with (last (y :: l) d).
  now rewrite (IH y d), (IH y x).
Qed.

Lemma previous_cons p c before :
  previous p (c :: before) = previous (Some c) before.
Proof. unfold previous. simpl map. apply last_cons_default. Qed.

Theorem search_spec r : forall s p,
  search fl r p s = true <->
  exists before rest b,
    s = before ++ rest /\ matches fl r (previous p before, rest) b.
Proof.
  induction s as [|c s IH]; intros p; simpl.
  - destruct (run fl r p [] _) eqn:E.
    + split; [intros _|reflexivity].
      apply run_spec in E. destruct E as (p' & s' & Hm & _).
      now exists [], [], (p', s').
    + split; [discriminate|].
      intros (before & rest & [p' s'] & Heq & Hm).
      symmetry in Heq. apply app_eq_nil in Heq. destruct Heq; subst.
      enough (run fl r p [] (fun _ _ => true) = true) by congruence.
      apply run_spec. now exists p', s'.
  - destruct (run fl r p (c :: s) _) eqn:E.
    + split; [intros _|reflexivity].
      apply run_spec in E. destruct E as (p' & s' & Hm & _).
      now exists [], (c :: s), (p', s').
    + rewrite IH. split.
      * intros (before & rest & b & Heq & Hm).
        exists (c :: before), rest, b. rewrite previous_cons.
        split; [now subst|exact Hm].
      * intros (before & rest & [p' s'] & Heq & Hm).
        destruct before as [|d before]; simpl in Heq.
        -- exfalso. subst rest.
           enough (run fl r p (c :: s) (fun _ _ => true) = true) by congruence.
           apply run_spec. now exists p', s'.
        -- injection Heq as -> ->. rewrite previous_cons in Hm.
           now exists before, rest, (p', s').
Qed.

End RegExpFacts.

(** ** The two patterns of the upload validation *)

Ltac invert_matches :=
  repeat match goal with
  | H : RegExp.matches _ (RegExp.Seq _ _) _ _ |- _ => inversion H; subst; clear H
  | H : RegExp.matches _ (RegExp.Plus _) _ _ |- _ => inversion H; subst; clear H
  | H : RegExp.matches _ (RegExp.Char _) _ _ |- _ => inversion H; subst; clear H
  | H : RegExp.matches _ (RegExp.NotChar _) _ _ |- _ => inversion H; subst; clear H
  | H : RegExp.matches _ RegExp.Dot _ _ |- _ => inversion H; subst; clear H
  | H : RegExp.matches _ RegExp.Bol _ _ |- _ => inversion H; subst; clear H
  | H : RegExp.matches _ RegExp.Eol _ _ |- _ => inversion H; subst; clear H
  end.

Section Patterns.
Import RegExp.

Lemma star_dot_consumes fl a b :
  matches fl (Star Dot) a b ->
  exists xs, snd a = xs ++ snd b /\ Forall (fun c => is_line_terminator c = false) xs.
Proof.
  remember (Star Dot) as r eqn:Hr. induction 1; try discriminate.
  - now exists [].
  - injection Hr as ->. destruct (IHmatches2 eq_refl) as (xs & Hxs & Hall).
    inversion H; subst. simpl in *. exists (x :: xs).
    split; [now rewrite Hxs | now constructor].
Qed.

Lemma dots_match fl xs : Forall (fun c => is_line_terminator c = false) xs -> forall p rest,
  exists p', matches fl (Star Dot) (p, xs ++ rest) (p', rest).
Proof.
  induction 1 as [|x xs Hx _ IH]; intros p rest.
  - exists p. apply MStarNil.
  - destruct (IH (Some x) rest) as [p' Hp'].
    exists p'. eapply MStarCons;
      [apply MDot; exact Hx | simpl; apply Nat.lt_succ_diag_r | exact Hp'].
Qed.

Lemma tail_reaches_eol : forall s p,
  exists p' s',
    matches format_flags (Star format_tail) (p, s) (p', s') /\
    at_eol format_flags s' = true.
Proof.
  induction s as [|c s IH]; intros p.
  - exists p, []. split; [apply MStarNil | reflexivity].
  - destruct (is_line_terminator c) eqn:E.
    + exists p, (c :: s). split; [apply MStarNil | simpl; exact E].
    + destruct (IH (Some c)) as (p' & s' & Hm & He).
      exists p', s'. split; [|exact He].
      eapply MStarCons;
        [apply MAltR; now apply MDot | simpl; apply Nat.lt_succ_diag_r | exact Hm].
Qed.

Lemma previous_snoc p before c : previous p (before ++ [c]) = Some c.
Proof. unfold previous. rewrite map_app. simpl. apply last_last. Qed.

Lemma at_bol_line_start before :
  at_bol format_flags (previous None before) = true <-> line_start before.
Proof.
  destruct before as [|c before] using rev_ind.
  - split; [now left | reflexivity].
  - rewrite previous_snoc. simpl. split.
    + intros Hc. right. now exists before, c.
    + intros [Hnil | (b & d & Heq & Hd)].
      * now destruct before.
      * apply app_inj_tail in Heq. destruct Heq as [_ ->]. exact Hd.
Qed.

(** What [/^.+,[^,]+(?:\r?\n|.)*$/gm.test(content)] decides. *)
Theorem format_test_spec content :
  test format_flags format_regexp content = true <->
  comma_after_line_start content.
Proof.
  unfold test. rewrite search_spec. split.
  - intros (before & rest & b & Heq & Hm). unfold format_regexp in Hm.
    invert_matches.
    match goal with
    | H : matches _ (Star Dot) _ _ |- _ =>
        apply star_dot_consumes in H; destruct H as (xs & Hxs & Hall)
    end.
    simpl in Hxs. subst.
    match goal with
    | H : canonicalize format_flags ?c = _ |- _ =>
        unfold canonicalize in H; simpl in H; subst c
    end.
    match goal with
    | H : canonicalize format_flags ?c <> _ |- _ =>
        unfold canonicalize in H; simpl in H
    end.
    match goal with
    | H : at_bol _ _ = true |- _ => apply at_bol_line_start in H
    end.
    match goal with
    | Hx : is_line_terminator ?x = false,
      Hn : ?y <> COMMA |- comma_after_line_start (_ ++ _ :: _ ++ _ :: _ :: ?r) =>
        exists before, (x :: xs), y, r
    end.
    split; [reflexivity|]. split; [assumption|].
    split; [discriminate|]. split; [now constructor | assumption].
  - intros (before & field & next & rest & -> & Hstart & Hfield & Hall & Hnext).
    destruct field as [|x xs]; [contradiction|].
    inversion Hall as [|? ? Hx Hxs]; subst.
    destruct (dots_match format_flags Hxs (Some x) (COMMA :: next :: rest))
      as [p1 Hdots].
    destruct (tail_reaches_eol rest (Some next)) as (p2 & s2 & Htail & Heol).
    exists before, ((x :: xs) ++ COMMA :: next :: rest), (p2, s2).
    split; [reflexivity|].
    unfold format_regexp.
    eapply MSeq; [apply MBol; now apply at_bol_line_start|].
    eapply MSeq; [eapply MPlus; [now apply MDot | exact Hdots]|].
    eapply MSeq; [now apply MChar|].
    eapply MSeq; [eapply MPlus; [now apply MNotChar | apply MStarNil]|].
    eapply MSeq; [exact Htail | now apply MEol].
Qed.

(** ASCII case folding, upwards and downwards. *)
Lemma canonicalize_lower x c :
  canonicalize extension_flags x = canonicalize extension_flags c <->
  lower_unit x = lower_unit c.
Proof.
  unfold canonicalize, lower_unit. simpl.
  destruct (N.leb_spec 97 x), (N.leb_spec x 122),
           (N.leb_spec 97 c), (N.leb_spec c 122),
           (N.leb_spec 65 x), (N.leb_spec x 90),
           (N.leb_spec 65 c), (N.leb_spec c 90); simpl; lia.
Qed.

Lemma extension_test_true name :
  test extension_flags extension_regexp name = true <->
  has_csv_extension name = true.
Proof.
  unfold test, has_csv_extension. rewrite search_spec, jsstring_eqb_eq. split.
  - intros (before & rest & b & -> & Hm). unfold extension_regexp in Hm.
    invert_matches.
    match goal with
    | H : at_eol _ ?s = true |- _ => destruct s; [|discriminate H]
    end.
    rewrite length_app, Nat.add_sub, skipn_app, skipn_all, Nat.sub_diag.
    simpl.
    repeat match goal with
    | H : canonicalize _ _ = canonicalize _ _ |- _ =>
        apply canonicalize_lower in H; rewrite H; clear H
    end.
    reflexivity.
  - intros Hlow.
    remember (skipn (length name - 4) name) as suffix eqn:Hs.
    destruct suffix as [|d [|c [|x [|v [|? ?]]]]]; try discriminate Hlow.
    injection Hlow as Hd Hc Hx Hv.
    exists (firstn (length name - 4) name), [d; c; x; v], (Some v, []).
    split; [rewrite Hs; symmetry; apply firstn_skipn|].
    unfold extension_regexp.
    eapply MSeq; [apply MChar; now apply canonicalize_lower|].
    eapply MSeq; [|now apply MEol].
    eapply MSeq; [apply MChar; now apply canonicalize_lower|].
    eapply MSeq; apply MChar; now apply canonicalize_lower.
Qed.

(** [/\.(csv)$/i.test(name)]: the name ends in [.csv], in any case. *)
Theorem extension_test_spec name :
  test extension_flags extension_regexp name = has_csv_extension name.
Proof.
  pose proof (extension_test_true name) as H.
  destruct (test extension_flags extension_regexp name),
           (has_csv_extension name); intuition congruence.
Qed.

End Patterns.

(** ** The monad *)

Lemma bind_returned A B (c : M A) (k : A -> M B) w a w' :
  c w = (Returned a, w') -> bind c k w = k a w'.
Proof. unfold bind. now intros ->. Qed.

Lemma bind_thrown A B (c : M A) (k : A -> M B) w e w' :
  c w = (Thrown e, w') -> bind c k w = (Thrown e, w').
Proof. unfold bind. now intros ->. Qed.

Lemma bind_returned_inv A B (c : M A) (k : A -> M B) w b w2 :
  bind c k w = (Returned b, w2) ->
  exists a w1, c w = (Returned a, w1) /\ k a w1 = (Returned b, w2).
Proof.
  unfold bind. destruct (c w) as [[a|e] w1]; [|discriminate].
  intros H. now exists a, w1.
Qed.

Lemma throws_only_ret A P (a : A) : throws_only P (ret a).
Proof. intros w e w' H. discriminate H. Qed.

Lemma throws_only_throw A P e : P e -> throws_only P (@throw A e).
Proof. intros He w e' w' H. injection H as <- _. exact He. Qed.

Lemma throws_only_bind A B P (c : M A) (k : A -> M B) :
  throws_only P c -> (forall a, throws_only P (k a)) -> throws_only P (bind c k).
Proof.
  intros Hc Hk w e w' H. unfold bind in H.
  destruct (c w) as [[a|e1] w1] eqn:E.
  - now apply (Hk a w1 e w').
  - injection H as <- _. now apply (Hc w e1 w1).
Qed.

Lemma throws_only_log P ev : throws_only P (log ev).
Proof. intros w e w' H. discriminate H. Qed.

Lemma throws_only_with_store A P h (k : IDB.object_store -> M A) :
  P (DOMException "InvalidStateError") ->
  (forall st, throws_only P (k st)) -> throws_only P (with_store h k).
Proof.
  intros HP Hk w e w' H. unfold with_store in H.
  destruct (assoc _ _) as [st|].
  - now apply (Hk st w e w').
  - injection H as <- _. exact HP.
Qed.

Create HintDb throws.
#[local] Hint Resolve throws_only_ret throws_only_log throws_only_throw
  throws_only_bind throws_only_with_store : throws.
#[local] Hint Extern 1 (engine_error _) => exact I : throws.

Lemma openDB_engine_error dbName dbVersion upgrade :
  throws_only engine_error (openDB dbName dbVersion upgrade).
Proof.
  unfold openDB. apply throws_only_bind; [auto with throws|]. intros _ w e w' H.
  destruct (dbVersion =? 0)%N; [injection H as <- _; exact I|].
  destruct (dbVersion <? _)%N; [injection H as <- _; exact I|].
  destruct (_ <? dbVersion)%N; [|discriminate H].
  destruct (match upgrade with Some _ => _ | None => _ end);
    [discriminate H | injection H as <- _; exact I].
Qed.

Lemma db_transaction_engine_error db storeName mode :
  throws_only engine_error (db_transaction db storeName mode).
Proof.
  unfold db_transaction. apply throws_only_bind; [auto with throws|].
  intros _ w e w' H. destruct (assoc _ _); [discriminate H|].
  injection H as <- _. exact I.
Qed.

Lemma objectStore_engine_error tx name :
  throws_only engine_error (objectStore tx name).
Proof. unfold objectStore. destruct (jsstring_eqb _ _); auto with throws. Qed.

Lemma store_get_engine_error h key :
  throws_only engine_error (store_get h key).
Proof. unfold store_get. auto 6 with throws. Qed.

Lemma put_store_engine_error h st : throws_only engine_error (put_store h st).
Proof. intros w e w' H. discriminate H. Qed.

Lemma store_add_engine_error h value key :
  throws_only engine_error (store_add h value key).
Proof.
  unfold store_add. apply throws_only_bind; [auto with throws|]. intros _.
  apply throws_only_with_store; [exact I|]. intros st.
  destruct (tx_mode h); [auto with throws|].
  destruct (assoc _ _); [auto with throws|].
  destruct (IDB.violates_unique _ _);
    [auto with throws | apply put_store_engine_error].
Qed.

Lemma Math_random_engine_error : throws_only engine_error Math_random.
Proof. intros w e w' H. discriminate H. Qed.

#[local] Hint Resolve openDB_engine_error db_transaction_engine_error
  objectStore_engine_error store_get_engine_error store_add_engine_error
  Math_random_engine_error : throws.

(** Once the validations have passed, [uploadFile] throws no [Error] of its
    own any more. *)
Lemma uploadFile_store_engine_error file dbName dbVersion objectStoreName :
  throws_only engine_error
    (uploadFile_store file dbName dbVersion objectStoreName).
Proof.
  unfold uploadFile_store, uploadFile_write, console_log.
  repeat (apply throws_only_bind; [auto with throws|intros ?]).
  - match goal with
    | |- throws_only _ (match ?x with _ => _ end) => destruct x
    end;
      repeat (apply throws_only_bind; [auto with throws|intros ?]);
      auto with throws.
  - auto with throws.
Qed.

Lemma uploadFile_unfold file dbName dbVersion objectStoreName :
  uploadFile (Some file) dbName dbVersion objectStoreName =
  if (File.size file >? MAX_SIZE)%Z then throw (Error "File size exceeds 200 MB")
  else if negb (RegExp.test extension_flags extension_regexp (File.name file))
  then throw (Error "Invalid file extension")
  else
    fileContent <- readFile file ;;
    if negb (RegExp.test format_flags format_regexp fileContent)
    then throw (Error "Invalid file format")
    else uploadFile_store file dbName dbVersion objectStoreName.
Proof. reflexivity. Qed.

(** ** Validation *)

Lemma readFile_eq file w :
  readFile file w =
  (match File.text file with
   | Some content => Returned content
   | None => Thrown FileReaderError
   end, after_validation bad_content w).
Proof. unfold readFile, bind, log. simpl. now destruct (File.text file). Qed.

(** C5. [uploadFile] applies its validations in the order missing-file,
    oversized (size above 200 * 1024 * 1024), bad-extension (the name does
    not end in [.csv], in any case), bad-content: the first validation of
    that list a file fails is the error thrown, and nothing after it is
    evaluated (the world is untouched, except that bad-content has read the
    file). *)
Theorem uploadFile_validation_order file dbName dbVersion objectStoreName w r :
  first_failure file = Some r ->
  uploadFile file dbName dbVersion objectStoreName w =
  (Thrown (ValidationError r), after_validation r w).
Proof.
  destruct file as [f|]; unfold first_failure.
  - rewrite uploadFile_unfold, Z.gtb_ltb, extension_test_spec.
    cbn [validations find fails].
    destruct (MAX_SIZE <? File.size f)%Z; [now intros [= <-]|].
    destruct (has_csv_extension (File.name f)); simpl; [|now intros [= <-]].
    unfold bind. rewrite readFile_eq.
    destruct (File.text f) as [content|]; [|discriminate].
    destruct (RegExp.test format_flags format_regexp content); simpl;
      [discriminate | now intros [= <-]].
  - now intros [= <-].
Qed.

Lemma uploadFile_validation_order_witness :
  first_failure (Some (csv "data.txt" (300 * 1024 * 1024) (js "no comma"))) =
    Some oversized /\
  uploadFile (Some (csv "data.txt" (300 * 1024 * 1024) (js "no comma")))
    raw_data 1 csv_store (fresh_world (fun _ => one_half)) =
  (Thrown (Error "File size exceeds 200 MB"), fresh_world (fun _ => one_half)).
Proof.
  split; [reflexivity|].
  exact (@uploadFile_validation_order
           (Some (csv "data.txt" (300 * 1024 * 1024) (js "no comma")))
           raw_data 1%N csv_store (fresh_world (fun _ => one_half)) oversized
           eq_refl).
Defined.

(** C10. A failed validation performs no durable write: when [uploadFile]
    throws one of the four validation errors, the databases are what they
    were, and the only operation performed, if any, is the reading of the
    file: the store was not opened and nothing was written. *)
Theorem uploadFile_validation_error_no_write
    file dbName dbVersion objectStoreName w r w' :
  uploadFile file dbName dbVersion objectStoreName w =
    (Thrown (ValidationError r), w') ->
  databases w' = databases w /\
  (trace w' = trace w \/ trace w' = EvReadAsText :: trace w).
Proof.
  destruct file as [f|].
  - rewrite uploadFile_unfold.
    destruct (File.size f >? MAX_SIZE)%Z; [intros [= _ <-]; auto|].
    destruct (negb (RegExp.test extension_flags _ _)); [intros [= _ <-]; auto|].
    unfold bind. rewrite readFile_eq.
    destruct (File.text f) as [content|].
    + destruct (negb (RegExp.test format_flags _ _)).
      * intros [= _ <-]. auto.
      * intros H. apply uploadFile_store_engine_error in H. now destruct r.
    + intros [= _ <-]. auto.
  - intros [= _ <-]. auto.
Qed.

Lemma uploadFile_validation_error_no_write_witness :
  uploadFile (Some (csv "data.txt" 10 (js "a,b"))) raw_data 1 csv_store
    (fresh_world (fun _ => one_half)) =
  (Thrown (ValidationError bad_extension), fresh_world (fun _ => one_half)) /\
  databases (fresh_world (fun _ => one_half)) =
    databases (fresh_world (fun _ => one_half)) /\
  (trace (fresh_world (fun _ => one_half)) =
     trace (fresh_world (fun _ => one_half)) \/
   trace (fresh_world (fun _ => one_half)) =
     EvReadAsText :: trace (fresh_world (fun _ => one_half))).
Proof.
  split; [reflexivity|].
  exact (@uploadFile_validation_error_no_write
           (Some (csv "data.txt" 10 (js "a,b"))) raw_data 1%N csv_store
           (fresh_world (fun _ => one_half)) bad_extension
           (fresh_world (fun _ => one_half)) eq_refl).
Defined.

(** C2 (as amended). Past the earlier validations, [uploadFile] throws the
    bad-content error exactly when no line start of the content is followed
    by a non-empty run of code units that are not line terminators, a comma
    and one more code unit that is not a comma: one such line is enough for
    the check to pass, whatever the other lines hold. *)
Theorem uploadFile_bad_content_iff f content dbName dbVersion objectStoreName w :
  File.text f = Some content ->
  (File.size f <= MAX_SIZE)%Z ->
  has_csv_extension (File.name f) = true ->
  fst (uploadFile (Some f) dbName dbVersion objectStoreName w) =
    Thrown (ValidationError bad_content) <->
  ~ comma_after_line_start content.
Proof.
  intros Htext Hsize Hext.
  rewrite uploadFile_unfold, Z.gtb_ltb, extension_test_spec, Hext.
  replace (MAX_SIZE <? File.size f)%Z with false
    by (symmetry; apply Z.ltb_ge; exact Hsize).
  unfold bind. cbn [negb]. cbv beta iota. rewrite readFile_eq, Htext.
  rewrite <- format_test_spec.
  destruct (RegExp.test format_flags format_regexp content);
    cbn [negb]; cbv beta iota.
  - split; [|intros H; now contradiction H].
    destruct (uploadFile_store _ _ _ _ _) as [[u|e] w'] eqn:E;
      [discriminate|].
    apply uploadFile_store_engine_error in E.
    simpl. intros [= ->]. contradiction.
  - split; [discriminate | reflexivity].
Qed.

Lemma uploadFile_bad_content_iff_witness :
  File.text (csv "speed.csv" 3 (js "foo")) = Some (js "foo") /\
  (File.size (csv "speed.csv" 3 (js "foo")) <= MAX_SIZE)%Z /\
  has_csv_extension (File.name (csv "speed.csv" 3 (js "foo"))) = true /\
  (fst (uploadFile (Some (csv "speed.csv" 3 (js "foo"))) raw_data 1 csv_store
          (fresh_world (fun _ => one_half))) =
     Thrown (ValidationError bad_content) <->
   ~ comma_after_line_start (js "foo")).
Proof.
  split; [reflexivity|]. split; [discriminate|]. split; [reflexivity|].
  apply (@uploadFile_bad_content_iff (csv "speed.csv" 3 (js "foo")) (js "foo")
           raw_data 1%N csv_store (fresh_world (fun _ => one_half)));
    [reflexivity | discriminate | reflexivity].
Defined.

Lemma split_lines_first content :
  exists line others tail,
    split_lines content = line :: others /\
    content = line ++ tail /\
    Forall (fun c => RegExp.is_line_terminator c = false) line.
Proof.
  induction content as [|c content (line & others & tail & Hsplit & Heq & Hall)].
  - now exists [], [], [].
  - simpl. destruct (RegExp.is_line_terminator c) eqn:E.
    + now exists [], (split_lines content), (c :: content).
    + rewrite Hsplit. exists (c :: line), others, tail.
      split; [reflexivity|]. split; [now rewrite Heq | now constructor].
Qed.

(** A content whose lines all have a separating comma passes the format
    check: its first line is enough. *)
Lemma separated_lines_pass content :
  (forall line, In line (split_lines content) -> separating_comma line) ->
  RegExp.test format_flags format_regexp content = true.
Proof.
  intros Hlines. apply format_test_spec.
  destruct (split_lines_first content) as (line & others & tail & Hsplit & Heq & Hall).
  destruct (Hlines line) as (prefix & value & Hline & Hprefix & Hvalue & Hfree).
  { rewrite Hsplit. now left. }
  destruct value as [|next value]; [contradiction|].
  exists [], prefix, next, (value ++ tail).
  split; [rewrite Heq, Hline, <- app_assoc; reflexivity|].
  split; [now left|]. split; [exact Hprefix|]. split.
  - rewrite Hline in Hall. now apply Forall_app in Hall.
  - intros ->. apply Hfree. now left.
Qed.

(** C2 as the specification words it fails: the second line of this
    content has no comma, and the upload is not refused for its content. *)
Lemma bad_content_every_line_counterexample :
  let content := js "a,b" ++ [LF] ++ js "foo" in
  (exists line, In line (split_lines content) /\ ~ separating_comma line) /\
  fst (uploadFile (Some (csv "speed.csv" 7 content)) raw_data 1 csv_store
         (fresh_world (fun _ => one_half))) <>
    Thrown (ValidationError bad_content).
Proof.
  cbv zeta. split.
  - exists (js "foo"). split; [simpl; auto|].
    intros (prefix & value & Heq & _).
    assert (Hin : In COMMA (js "foo")) by (rewrite Heq; apply in_elt).
    simpl in Hin. intuition discriminate.
  - vm_compute. discriminate.
Qed.

(** ** The query engine *)

Lemma filterFiles_loop_spec : forall cur q limit count items w,
  fst (filterFiles_loop cur q limit count items w) =
  Returned (items ++ filter (name_matches q)
                       (map snd (firstn (Z.to_nat (limit - count)) cur))).
Proof.
  induction cur as [|[key upload] next IH]; intros q limit count items w.
  - simpl. now rewrite firstn_nil, app_nil_r.
  - simpl. destruct (Z.ltb_spec count limit) as [Hlt|Hge].
    + unfold bind, log. rewrite IH.
      replace (Z.to_nat (limit - count))
        with (S (Z.to_nat (limit - (count + 1)))) by lia.
      simpl. destruct (name_matches q upload); [|reflexivity].
      now rewrite <- app_assoc.
    + replace (Z.to_nat (limit - count)) with O by lia.
      simpl. now rewrite app_nil_r.
Qed.

(** What the bounded filter keeps: the matching records among the first
    [limit] records of the cursor, matching or not. *)
Lemma filterFiles_scans_prefix cur q limit w :
  fst (filterFiles cur q limit w) =
  Returned (filter (name_matches q) (map snd (firstn (Z.to_nat limit) cur))).
Proof.
  unfold filterFiles. rewrite filterFiles_loop_spec. now rewrite Z.sub_0_r.
Qed.

(** C1 (the code departs from it). With the records [a.csv] and [b.csv] in
    the store, the query ["b"], offset 0 and limit 1, no match has been
    collected when the scan reaches [b.csv], which matches; a scan that
    stops once [offset + limit] matches are collected keeps it, but
    [filterFiles] counts [a.csv] against the limit, stops, and [fetchFiles]
    returns nothing. *)
Theorem filterFiles_counts_scanned_records :
  let records := [(js "a.csv", stored "a.csv" 10); (js "b.csv", stored "b.csv" 20)] in
  let w := {| databases :=
                [(raw_data,
                  {| IDB.version := 1;
                     IDB.objectStores :=
                       [(csv_store, {| IDB.records := records; IDB.indexes := [] |})] |})];
              random := fun _ => one_half; draws := 0; trace := [] |} in
  name_matches (Some (js "b")) (stored "b.csv" 20) = true /\
  collect_matches records (Some (js "b")) 1 = [stored "b.csv" 20] /\
  fst (filterFiles records (Some (js "b")) (1 + 0) w) = Returned [] /\
  fst (fetchFiles raw_data 1 csv_store (Some (js "b")) None (js "asc") 0 1 w) =
    Returned [].
Proof. cbv zeta. repeat split. Qed.

(** C7. For two records with distinct values of a numeric sort field,
    sorting in descending order gives the reverse of sorting in ascending
    order. *)
Theorem sortFiles_desc_reverses_asc a b sortField x y :
  get_property a sortField = VNumber x ->
  get_property b sortField = VNumber y ->
  x <> y ->
  sortFiles [a; b] sortField (js "desc") =
  rev (sortFiles [a; b] sortField (js "asc")).
Proof.
  intros Ha Hb Hxy. unfold sortFiles, array_sort. simpl.
  unfold compareFiles. rewrite Ha, Hb.
  change (jsstring_eqb (js "desc") (js "asc")) with false.
  change (jsstring_eqb (js "asc") (js "asc")) with true.
  simpl. destruct (Z.ltb_spec x y), (Z.ltb_spec y x); simpl; try reflexivity; lia.
Qed.

Lemma sortFiles_desc_reverses_asc_witness :
  get_property (stored "a.csv" 41) (js "size") = VNumber 41 /\
  get_property (stored "b.csv" 55) (js "size") = VNumber 55 /\
  41%Z <> 55%Z /\
  sortFiles [stored "a.csv" 41; stored "b.csv" 55] (js "size") (js "desc") =
  rev (sortFiles [stored "a.csv" 41; stored "b.csv" 55] (js "size") (js "asc")).
Proof.
  split; [reflexivity|]. split; [reflexivity|]. split; [discriminate|].
  apply (@sortFiles_desc_reverses_asc (stored "a.csv" 41) (stored "b.csv" 55)
           (js "size") 41%Z 55%Z); [reflexivity | reflexivity | discriminate].
Defined.

Lemma paginateFiles_negative_offset files offset limit :
  (offset < 0)%Z -> paginateFiles files offset limit = paginateFiles files 0 limit.
Proof.
  intros Hneg. unfold paginateFiles.
  destruct (Z.ltb_spec offset 0); [reflexivity | lia].
Qed.

Lemma paginateFiles_page files offset limit :
  (0 <= limit)%Z ->
  paginateFiles files offset limit = page files (Z.max 0 offset) limit.
Proof.
  intros Hlimit. unfold paginateFiles, array_slice, page.
  set (len := Z.of_nat (length files)).
  assert (Hlen : (0 <= len)%Z) by (unfold len; lia).
  set (start := if (offset <? 0)%Z then 0%Z else offset).
  assert (Hstart : start = Z.max 0 offset)
    by (unfold start; destruct (Z.ltb_spec offset 0); lia).
  rewrite <- Hstart. clearbody start.
  assert (H0 : (0 <= start)%Z) by lia.
  set (stop := if (start + limit >? len)%Z then len else (start + limit)%Z).
  assert (Hstop : stop = Z.min (start + limit) len)
    by (unfold stop; rewrite Z.gtb_ltb; destruct (Z.ltb_spec len (start + limit)); lia).
  destruct (Z.ltb_spec start 0); [lia|].
  destruct (Z.ltb_spec stop 0); [lia|].
  destruct (Z.le_gt_cases len start) as [Hout|Hin].
  - replace (Z.min start len) with len by lia.
    rewrite (skipn_all2 (n := Z.to_nat len)) by (unfold len; lia).
    rewrite (skipn_all2 (n := Z.to_nat start)) by (unfold len in Hout; lia).
    now rewrite !firstn_nil.
  - replace (Z.min start len) with start by lia.
    destruct (Z.le_gt_cases (start + limit) len) as [Hfit|Hclip].
    + f_equal. lia.
    + rewrite !firstn_all2; [reflexivity| |];
        rewrite length_skipn; unfold len in *; lia.
Qed.

(** C8 (as amended). A negative offset gives the page of offset 0, for
    every limit; and for a limit that is not negative, [paginateFiles]
    returns the slice from the offset (0 for a negative one) of at most
    [limit] items, clipped to the length of its input. *)
Theorem paginateFiles_spec (files : list Upload.t) (offset limit : Z) :
  ((offset < 0)%Z ->
   paginateFiles files offset limit = paginateFiles files 0 limit) /\
  ((0 <= limit)%Z ->
   paginateFiles files offset limit = page files (Z.max 0 offset) limit).
Proof.
  split; [apply paginateFiles_negative_offset | apply paginateFiles_page].
Qed.

Lemma paginateFiles_spec_witness :
  paginateFiles [stored "a.csv" 1; stored "b.csv" 2; stored "c.csv" 3] (-2) 2 =
  paginateFiles [stored "a.csv" 1; stored "b.csv" 2; stored "c.csv" 3] 0 2 /\
  paginateFiles [stored "a.csv" 1; stored "b.csv" 2; stored "c.csv" 3] (-2) 2 =
  page [stored "a.csv" 1; stored "b.csv" 2; stored "c.csv" 3] (Z.max 0 (-2)) 2.
Proof.
  destruct (paginateFiles_spec
              [stored "a.csv" 1; stored "b.csv" 2; stored "c.csv" 3] (-2) 2)
    as [Hclamp Hpage].
  split; [apply Hclamp; reflexivity | apply Hpage; discriminate].
Defined.

(** C8 as stated fails for a negative limit: the end index is then
    negative and [slice] counts it from the end of the array, so two of the
    three records come back where the slice from 0 of -1 items is empty. *)
Lemma paginateFiles_negative_limit_counterexample :
  paginateFiles [stored "a.csv" 1; stored "b.csv" 2; stored "c.csv" 3] 0 (-1) =
    [stored "a.csv" 1; stored "b.csv" 2] /\
  page [stored "a.csv" 1; stored "b.csv" 2; stored "c.csv" 3] 0 (-1) = [] /\
  paginateFiles [stored "a.csv" 1; stored "b.csv" 2; stored "c.csv" 3] 0 (-1) <>
  page [stored "a.csv" 1; stored "b.csv" 2; stored "c.csv" 3] (Z.max 0 0) (-1).
Proof. repeat split. discriminate. Qed.

(** ** The engine *)

Lemma assoc_set_same A k (a : A) l : assoc k (assoc_set k a l) = Some a.
Proof.
  induction l as [|[k' a'] l IH]; simpl.
  - now rewrite jsstring_eqb_refl.
  - destruct (jsstring_eqb k k') eqn:E; simpl.
    + now rewrite jsstring_eqb_refl.
    + now rewrite E.
Qed.

Lemma assoc_app_new A k (a : A) l :
  assoc k l = None -> assoc k (l ++ [(k, a)]) = Some a.
Proof.
  induction l as [|[k' a'] l IH]; simpl.
  - now rewrite jsstring_eqb_refl.
  - destruct (jsstring_eqb k k'); [discriminate | exact IH].
Qed.

Lemma assoc_In A k (a : A) l : assoc k l = Some a -> In (k, a) l.
Proof.
  induction l as [|[k' a'] l IH]; simpl; [discriminate|].
  destruct (jsstring_eqb k k') eqn:E.
  - apply jsstring_eqb_eq in E. intros [= ->]. left. now subst.
  - intros H. right. now apply IH.
Qed.

Lemma assoc_None_not_In A k l : (forall a : A, ~ In (k, a) l) -> assoc k l = None.
Proof.
  intros H. destruct (assoc k l) as [a|] eqn:E; [|reflexivity].
  apply assoc_In in E. now apply H in E.
Qed.

Lemma assoc_insert_same A k (a : A) l :
  assoc k l = None -> assoc k (insert_by_key k a l) = Some a.
Proof.
  induction l as [|[k' a'] l IH]; simpl.
  - now rewrite jsstring_eqb_refl.
  - destruct (jsstring_eqb k k') eqn:E; [discriminate|]. intros H.
    destruct (jsstring_ltb k k'); simpl.
    + now rewrite jsstring_eqb_refl.
    + rewrite E. now apply IH.
Qed.

Lemma assoc_insert_other A k k' (a : A) l :
  k' <> k -> assoc k' (insert_by_key k a l) = assoc k' l.
Proof.
  intros Hneq. induction l as [|[k0 a0] l IH]; simpl.
  - now apply jsstring_eqb_neq in Hneq as ->.
  - destruct (jsstring_ltb k k0); simpl.
    + now apply jsstring_eqb_neq in Hneq as ->.
    + destruct (jsstring_eqb k' k0); [reflexivity | exact IH].
Qed.

Lemma the_database_set dbName db w :
  the_database dbName (snd (set_database dbName db w)) = db.
Proof. unfold the_database, set_database. simpl. now rewrite assoc_set_same. Qed.

(** Opening without an upgrade callback keeps the stores. *)
Lemma openDB_plain w dbName dbVersion :
  opens w dbName dbVersion ->
  exists w1,
    openDB dbName dbVersion None w = (Returned dbName, w1) /\
    IDB.objectStores (the_database dbName w1) =
    IDB.objectStores (the_database dbName w).
Proof.
  intros [Hpos Hle]. unfold openDB, bind, log. cbv beta iota.
  change (the_database dbName (with_event (EvOpenDB dbName dbVersion) w))
    with (the_database dbName w).
  destruct (N.eqb_spec dbVersion 0); [lia|].
  destruct (N.ltb_spec dbVersion (IDB.version (the_database dbName w))); [lia|].
  destruct (N.ltb_spec (IDB.version (the_database dbName w)) dbVersion).
  - eexists. split; [reflexivity|].
    unfold the_database at 1. cbn [databases]. now rewrite assoc_set_same.
  - eexists. split; reflexivity.
Qed.

Lemma objectStoreNames_contains_eq db name w :
  objectStoreNames_contains db name w =
  (Returned match assoc name (IDB.objectStores (the_database db w)) with
            | Some _ => true
            | None => false
            end, w).
Proof. unfold objectStoreNames_contains. now destruct (assoc _ _). Qed.

Lemma db_transaction_some db storeName mode w st :
  assoc storeName (IDB.objectStores (the_database db w)) = Some st ->
  db_transaction db storeName mode w =
  (Returned {| tx_db := db; tx_store := storeName; tx_mode := mode |},
   with_event (EvTransaction storeName mode) w).
Proof.
  intros H. unfold db_transaction, bind, log. cbv beta iota.
  change (the_database db (with_event _ w)) with (the_database db w).
  now rewrite H.
Qed.

Lemma db_transaction_none db storeName mode w :
  assoc storeName (IDB.objectStores (the_database db w)) = None ->
  db_transaction db storeName mode w =
  (Thrown (DOMException "NotFoundError"),
   with_event (EvTransaction storeName mode) w).
Proof.
  intros H. unfold db_transaction, bind, log. cbv beta iota.
  change (the_database db (with_event _ w)) with (the_database db w).
  now rewrite H.
Qed.

Lemma objectStore_same db storeName mode w :
  objectStore {| tx_db := db; tx_store := storeName; tx_mode := mode |}
    storeName w =
  (Returned {| tx_db := db; tx_store := storeName; tx_mode := mode |}, w).
Proof. unfold objectStore. simpl. now rewrite jsstring_eqb_refl. Qed.

Lemma with_store_some A h (k : IDB.object_store -> M A) w st :
  assoc (tx_store h) (IDB.objectStores (the_database (tx_db h) w)) = Some st ->
  with_store h k w = k st w.
Proof. intros H. unfold with_store. now rewrite H. Qed.

Lemma store_get_eq h key w st :
  assoc (tx_store h) (IDB.objectStores (the_database (tx_db h) w)) = Some st ->
  store_get h key w =
  (Returned (assoc key (IDB.records st)), with_event (EvGet key) w).
Proof.
  intros H. unfold store_get, bind, log. cbv beta iota.
  now rewrite (with_store_some h _ (with_event (EvGet key) w) H).
Qed.

Lemma store_getAllKeys_eq h w st :
  assoc (tx_store h) (IDB.objectStores (the_database (tx_db h) w)) = Some st ->
  store_getAllKeys h w =
  (Returned (map fst (IDB.records st)), with_event EvGetAllKeys w).
Proof.
  intros H. unfold store_getAllKeys, bind, log. cbv beta iota.
  now rewrite (with_store_some h _ (with_event EvGetAllKeys w) H).
Qed.

(** C9. When the database opens, [getKeys] returns the empty sequence for
    a store that was never created, without an error, and otherwise the
    primary keys of the store in store order. *)
Theorem getKeys_spec w dbName dbVersion objectStoreName :
  opens w dbName dbVersion ->
  match assoc objectStoreName (IDB.objectStores (the_database dbName w)) with
  | None => fst (getKeys dbName dbVersion objectStoreName w) = Returned []
  | Some st =>
      fst (getKeys dbName dbVersion objectStoreName w) =
      Returned (map fst (IDB.records st))
  end.
Proof.
  intros Hopen. destruct (openDB_plain Hopen) as (w1 & Hw1 & Hstores).
  unfold getKeys. erewrite bind_returned by exact Hw1.
  erewrite bind_returned by apply objectStoreNames_contains_eq.
  rewrite Hstores.
  destruct (assoc objectStoreName _) as [st|] eqn:E; [|reflexivity].
  rewrite <- Hstores in E. cbn [negb]. cbv iota.
  erewrite bind_returned by (eapply db_transaction_some; exact E).
  erewrite bind_returned by apply objectStore_same.
  now erewrite store_getAllKeys_eq by exact E.
Qed.

Lemma getKeys_spec_witness :
  opens (fresh_world (fun _ => one_half)) raw_data 1 /\
  fst (getKeys raw_data 1 csv_store (fresh_world (fun _ => one_half))) =
    Returned [].
Proof.
  assert (H : opens (fresh_world (fun _ => one_half)) raw_data 1)
    by (split; [reflexivity | discriminate]).
  split; [exact H|].
  exact (@getKeys_spec (fresh_world (fun _ => one_half)) raw_data 1%N csv_store H).
Defined.

Lemma stored_records_put h st w :
  stored_records (snd (put_store h st w)) (tx_db h) (tx_store h) = IDB.records st.
Proof.
  unfold stored_records, put_store. rewrite the_database_set. simpl.
  now rewrite assoc_set_same.
Qed.

Lemma store_add_eq h value key w st :
  assoc (tx_store h) (IDB.objectStores (the_database (tx_db h) w)) = Some st ->
  tx_mode h = ReadWrite ->
  store_add h value key w =
  match assoc key (IDB.records st) with
  | Some _ =>
      (Thrown (DOMException "ConstraintError"), with_event (EvAdd key) w)
  | None =>
      if IDB.violates_unique st value
      then (Thrown (DOMException "ConstraintError"), with_event (EvAdd key) w)
      else put_store h
             {| IDB.records := insert_by_key key value (IDB.records st);
                IDB.indexes := IDB.indexes st |} (with_event (EvAdd key) w)
  end.
Proof.
  intros Hst Hmode. unfold store_add, bind, log. cbv beta iota.
  rewrite (with_store_some h _ (with_event (EvAdd key) w) Hst), Hmode.
  destruct (assoc key (IDB.records st)); [reflexivity|].
  now destruct (IDB.violates_unique st value).
Qed.

Lemma index_key_name u :
  IDB.index_key (js "name") u = Some (VString (Upload.name u)).
Proof. reflexivity. Qed.

(** A store with at most indexes on [name] accepts a record whose name no
    stored record has. *)
Lemma no_unique_violation st u :
  (forall n ix, In (n, ix) (IDB.indexes st) -> IDB.keyPath ix = js "name") ->
  (forall k r, In (k, r) (IDB.records st) -> Upload.name r <> Upload.name u) ->
  IDB.violates_unique st u = false.
Proof.
  intros Hschema Hfree. unfold IDB.violates_unique.
  destruct (existsb _ (IDB.indexes st)) eqn:E; [exfalso|reflexivity].
  apply existsb_exists in E. destruct E as ([n ix] & Hin & Hbad).
  simpl in Hbad. rewrite (Hschema n ix Hin), index_key_name in Hbad.
  destruct (IDB.unique ix); [simpl in Hbad|discriminate].
  apply existsb_exists in Hbad. destruct Hbad as ([k r] & Hr & Hkey).
  unfold IDB.has_index_key in Hkey. simpl snd in Hkey.
  rewrite index_key_name in Hkey. simpl in Hkey.
  apply jsstring_eqb_eq in Hkey. now apply (Hfree k r Hr).
Qed.

(** ** The store stage of [uploadFile] *)

Lemma openDB_upload_ready w dbName dbVersion objectStoreName :
  gateway_ready w dbName dbVersion objectStoreName ->
  exists w1 st,
    openDB dbName dbVersion (Some (uploadFile_upgrade objectStoreName)) w =
      (Returned dbName, w1) /\
    assoc objectStoreName (IDB.objectStores (the_database dbName w1)) = Some st /\
    IDB.records st = stored_records w dbName objectStoreName /\
    (forall n ix, In (n, ix) (IDB.indexes st) -> IDB.keyPath ix = js "name").
Proof.
  intros [Hpos Hready]. unfold stored_records. cbv zeta in Hready.
  unfold openDB, bind, log. cbv beta iota.
  change (the_database dbName (with_event (EvOpenDB dbName dbVersion) w))
    with (the_database dbName w).
  destruct (N.eqb_spec dbVersion 0); [lia|].
  destruct (assoc objectStoreName (IDB.objectStores (the_database dbName w)))
    as [st|] eqn:E.
  - destruct Hready as [Hv Hschema]. rewrite Hv, !N.ltb_irrefl.
    exists (with_event (EvOpenDB dbName dbVersion) w), st.
    split; [reflexivity|]. split; [exact E|]. split; [reflexivity|exact Hschema].
  - destruct (N.ltb_spec dbVersion (IDB.version (the_database dbName w))); [lia|].
    destruct (N.ltb_spec (IDB.version (the_database dbName w)) dbVersion); [|lia].
    unfold uploadFile_upgrade, IDB.createObjectStore, IDB.createIndex.
    cbn [with_version IDB.objectStores IDB.version]. rewrite E.
    cbn [IDB.objectStores IDB.version].
    erewrite assoc_app_new by exact E. cbn [IDB.indexes assoc IDB.records app].
    eexists. eexists. split; [reflexivity|].
    unfold the_database at 1. cbn [databases snd set_database ret].
    rewrite assoc_set_same. cbn [IDB.objectStores]. rewrite assoc_set_same.
    split; [reflexivity|]. split; [reflexivity|].
    cbn [IDB.indexes]. intros n0 ix [[= _ <-]|[]]. reflexivity.
Qed.

Lemma openDB_upload_inv w dbName dbVersion objectStoreName h w1 :
  openDB dbName dbVersion (Some (uploadFile_upgrade objectStoreName)) w =
    (Returned h, w1) ->
  h = dbName /\
  stored_records w1 dbName objectStoreName =
    stored_records w dbName objectStoreName /\
  random w1 = random w /\ draws w1 = draws w.
Proof.
  unfold openDB, bind, log. cbv beta iota.
  change (the_database dbName (with_event (EvOpenDB dbName dbVersion) w))
    with (the_database dbName w).
  destruct (dbVersion =? 0)%N; [discriminate|].
  destruct (dbVersion <? _)%N; [discriminate|].
  destruct (_ <? dbVersion)%N.
  - unfold uploadFile_upgrade, IDB.createObjectStore, IDB.createIndex.
    cbn [with_version IDB.objectStores IDB.version].
    destruct (assoc objectStoreName (IDB.objectStores (the_database dbName w)))
      as [st|] eqn:E; [discriminate|].
    cbn [IDB.objectStores IDB.version].
    erewrite assoc_app_new by exact E. cbn [IDB.indexes assoc IDB.records app].
    intros [= <- <-]. split; [reflexivity|].
    unfold stored_records. rewrite E.
    unfold the_database at 1. cbn [databases snd set_database ret].
    rewrite assoc_set_same. cbn [IDB.objectStores]. rewrite assoc_set_same.
    repeat split.
  - intros [= <- <-]. repeat split.
Qed.

Lemma Math_random_eq w :
  Math_random w =
  (Returned (random w (draws w)),
   {| databases := databases w; random := random w;
      draws := S (draws w); trace := EvRandom :: trace w |}).
Proof. reflexivity. Qed.

Lemma uploadFile_write_eq file db objectStoreName w st :
  assoc objectStoreName (IDB.objectStores (the_database db w)) = Some st ->
  let u := resolved file (assoc (File.name file) (IDB.records st))
             (random w (draws w)) in
  exists w2,
    the_database db w2 = the_database db w /\
    uploadFile_write file db objectStoreName w =
    match assoc (Upload.name u) (IDB.records st) with
    | Some _ => (Thrown (DOMException "ConstraintError"), w2)
    | None =>
        if IDB.violates_unique st u
        then (Thrown (DOMException "ConstraintError"), w2)
        else
          (Returned u,
           snd (put_store
                  {| tx_db := db; tx_store := objectStoreName;
                     tx_mode := ReadWrite |}
                  {| IDB.records :=
                       insert_by_key (Upload.name u) u (IDB.records st);
                     IDB.indexes := IDB.indexes st |} w2))
    end.
Proof.
  intros Hst u. unfold uploadFile_write.
  erewrite bind_returned by (eapply db_transaction_some; exact Hst).
  erewrite bind_returned by apply objectStore_same.
  erewrite bind_returned by (eapply store_get_eq; exact Hst).
  set (h := {| tx_db := db; tx_store := objectStoreName; tx_mode := ReadWrite |}).
  set (w1 := with_event (EvGet (File.name file))
               (with_event (EvTransaction objectStoreName ReadWrite) w)).
  assert (Hst1 : forall w', databases w' = databases w1 ->
            assoc (tx_store h) (IDB.objectStores (the_database (tx_db h) w')) =
            Some st).
  { intros w' Hw'. unfold the_database. rewrite Hw'. exact Hst. }
  subst u. destruct (assoc (File.name file) (IDB.records st)) as [old|];
    cbn [resolved].
  - unfold bind at 1. unfold bind at 1. rewrite Math_random_eq.
    unfold console_log, log, bind at 1. cbv beta iota. cbn [ret].
    cbv beta iota. unfold bind.
    match goal with
    | |- context [store_add h ?v ?k ?w'] =>
        rewrite (@store_add_eq h v k w' st (Hst1 w' eq_refl) eq_refl);
        exists (with_event (EvAdd k) w')
    end.
    split; [reflexivity|].
    destruct (assoc _ (IDB.records st)); [reflexivity|].
    destruct (IDB.violates_unique st _); [reflexivity|].
    unfold put_store, set_database, ret. reflexivity.
  - unfold bind at 1. cbn [ret]. cbv beta iota. unfold bind.
    match goal with
    | |- context [store_add h ?v ?k ?w'] =>
        rewrite (@store_add_eq h v k w' st (Hst1 w' eq_refl) eq_refl);
        exists (with_event (EvAdd k) w')
    end.
    split; [reflexivity|].
    destruct (assoc _ (IDB.records st)); [reflexivity|].
    destruct (IDB.violates_unique st _); [reflexivity|].
    unfold put_store, set_database, ret. reflexivity.
Qed.

Lemma uploadFile_write_none file db objectStoreName w :
  assoc objectStoreName (IDB.objectStores (the_database db w)) = None ->
  fst (uploadFile_write file db objectStoreName w) =
  Thrown (DOMException "NotFoundError").
Proof.
  intros H. unfold uploadFile_write.
  now erewrite bind_thrown by (apply db_transaction_none; exact H).
Qed.

(** What a successful upload has done. *)
Lemma uploadFile_returned_inv f dbName dbVersion objectStoreName w u w' :
  uploadFile (Some f) dbName dbVersion objectStoreName w = (Returned u, w') ->
  let before := stored_records w dbName objectStoreName in
  u = resolved f (assoc (File.name f) before) (random w (draws w)) /\
  assoc (Upload.name u) before = None /\
  stored_records w' dbName objectStoreName =
    insert_by_key (Upload.name u) u before.
Proof.
  rewrite uploadFile_unfold.
  destruct (File.size f >? MAX_SIZE)%Z; [discriminate|].
  destruct (negb (RegExp.test extension_flags _ _)); [discriminate|].
  unfold bind at 1. rewrite readFile_eq.
  destruct (File.text f) as [content|]; [|discriminate].
  destruct (negb (RegExp.test format_flags _ _)); [discriminate|].
  unfold uploadFile_store. intros H. apply bind_returned_inv in H.
  destruct H as (h & w1 & Hopen & Hwrite).
  apply openDB_upload_inv in Hopen.
  destruct Hopen as (-> & Hrecs & Hrandom & Hdraws).
  change (stored_records (after_validation bad_content w) dbName objectStoreName)
    with (stored_records w dbName objectStoreName) in Hrecs.
  change (random (after_validation bad_content w)) with (random w) in Hrandom.
  change (draws (after_validation bad_content w)) with (draws w) in Hdraws.
  cbv zeta. rewrite <- Hrecs, <- Hrandom, <- Hdraws.
  destruct (assoc objectStoreName (IDB.objectStores (the_database dbName w1)))
    as [st|] eqn:E.
  - destruct (uploadFile_write_eq f dbName objectStoreName w1 E)
      as (w2 & _ & Heq).
    cbv zeta in Heq. rewrite Heq in Hwrite. clear Heq.
    assert (Hst : stored_records w1 dbName objectStoreName = IDB.records st)
      by (unfold stored_records; now rewrite E).
    rewrite Hst.
    destruct (assoc (Upload.name _) (IDB.records st)) eqn:Hfree; [discriminate|].
    destruct (IDB.violates_unique st _); [discriminate|].
    injection Hwrite as <- <-.
    split; [reflexivity|]. split; [exact Hfree|].
    exact (stored_records_put
             {| tx_db := dbName; tx_store := objectStoreName; tx_mode := ReadWrite |}
             _ w2).
  - pose proof (uploadFile_write_none f dbName objectStoreName w1 E) as Hnone.
    rewrite Hwrite in Hnone. discriminate.
Qed.

(** Where the store gateway is usable: a file of at most 200 MiB, with a
    name ending in [.csv] and a content that passes the format check,
    uploaded when no stored record has its name, is stored.  The upload
    returns a record with the name of the file and an annotation count of
    0, and the store holds that record under that name. *)
Theorem uploadFile_succeeds f content dbName dbVersion objectStoreName w :
  (File.size f <= MAX_SIZE)%Z ->
  has_csv_extension (File.name f) = true ->
  File.text f = Some content ->
  RegExp.test format_flags format_regexp content = true ->
  gateway_ready w dbName dbVersion objectStoreName ->
  (forall k r, In (k, r) (stored_records w dbName objectStoreName) ->
               k <> File.name f /\ Upload.name r <> File.name f) ->
  exists u w',
    uploadFile (Some f) dbName dbVersion objectStoreName w = (Returned u, w') /\
    Upload.name u = File.name f /\
    Upload.annotationCount u = 0%Z /\
    assoc (File.name f) (stored_records w' dbName objectStoreName) = Some u.
Proof.
  intros Hsize Hext Htext Hformat Hready Hfree.
  rewrite uploadFile_unfold, Z.gtb_ltb, extension_test_spec, Hext.
  replace (MAX_SIZE <? File.size f)%Z with false
    by (symmetry; apply Z.ltb_ge; exact Hsize).
  unfold bind at 1. cbn [negb]. cbv beta iota.
  rewrite readFile_eq, Htext, Hformat. cbn [negb]. cbv beta iota.
  destruct (@openDB_upload_ready (after_validation bad_content w)
              dbName dbVersion objectStoreName Hready)
    as (w1 & st & Hopen & Hst & Hrecs & Hschema).
  change (stored_records (after_validation bad_content w) dbName objectStoreName)
    with (stored_records w dbName objectStoreName) in Hrecs.
  unfold uploadFile_store. erewrite bind_returned by exact Hopen.
  destruct (uploadFile_write_eq f dbName objectStoreName w1 Hst)
    as (w2 & _ & Heq).
  cbv zeta in Heq. rewrite Heq. clear Heq.
  assert (Hnone : assoc (File.name f) (IDB.records st) = None).
  { apply assoc_None_not_In. intros a Hin. rewrite Hrecs in Hin.
    now apply Hfree in Hin. }
  rewrite Hnone. cbn [resolved new_upload Upload.name]. rewrite Hnone.
  rewrite no_unique_violation.
  - eexists. eexists. split; [reflexivity|].
    split; [reflexivity|]. split; [reflexivity|].
    rewrite (stored_records_put
               {| tx_db := dbName; tx_store := objectStoreName;
                  tx_mode := ReadWrite |}).
    cbn [IDB.records]. now apply assoc_insert_same.
  - exact Hschema.
  - intros k r Hin. rewrite Hrecs in Hin. now apply Hfree in Hin.
Qed.

Lemma uploadFile_succeeds_witness :
  exists u w',
    uploadFile (Some speed_csv) raw_data 1 csv_store
      (fresh_world (fun _ => one_half)) = (Returned u, w') /\
    Upload.name u = js "speed.csv" /\
    Upload.annotationCount u = 0%Z /\
    assoc (js "speed.csv") (stored_records w' raw_data csv_store) = Some u.
Proof.
  apply (@uploadFile_succeeds speed_csv
           (js "timestamp,speedometer_x,speedometer_y" ++ [LF] ++
            js "1,2,3" ++ [LF])
           raw_data 1%N csv_store (fresh_world (fun _ => one_half))).
  - discriminate.
  - reflexivity.
  - reflexivity.
  - reflexivity.
  - split; reflexivity.
  - intros k r [].
Defined.

(** C6 (the code departs from it). The store is created by the upgrade of
    [uploadFile] alone, and an upgrade runs only when the version rises.
    [getKeys] opens the database with no upgrade: on a database that did
    not exist it returns [[]] and leaves the database at version 1 with no
    store.  The upload of [speed.csv] that follows, a file that passes the
    four validations, to a store state that holds no record at all, throws
    [NotFoundError] at [db.transaction] and stores nothing; the same upload
    on the database that was never opened returns its record. *)
Theorem uploadFile_after_getKeys_throws :
  let fresh := fresh_world (fun _ => one_half) in
  let listed := snd (getKeys raw_data 1 csv_store fresh) in
  ((File.size speed_csv <= MAX_SIZE)%Z /\
   has_csv_extension (File.name speed_csv) = true /\
   File.text speed_csv = Some speed_content /\
   RegExp.test format_flags format_regexp speed_content = true) /\
  fst (getKeys raw_data 1 csv_store fresh) = Returned [] /\
  stored_records listed raw_data csv_store = [] /\
  fst (uploadFile (Some speed_csv) raw_data 1 csv_store listed) =
    Thrown (DOMException "NotFoundError") /\
  stored_records
    (snd (uploadFile (Some speed_csv) raw_data 1 csv_store listed))
    raw_data csv_store = [] /\
  fst (uploadFile (Some speed_csv) raw_data 1 csv_store fresh) =
    Returned (new_upload speed_csv).
Proof.
  cbv zeta. split; [|repeat split].
  split; [vm_compute; discriminate|]. repeat split.
Qed.

(** ** The collision suffix *)

Lemma digit36_ok d : (d < 36)%N -> is_digit36 (digit36 d) = true.
Proof.
  intros Hd. unfold is_digit36, digit36.
  destruct (N.ltb_spec d 10).
  - replace (48 <=? 48 + d)%N with true by (symmetry; apply N.leb_le; lia).
    replace (48 + d <=? 57)%N with true by (symmetry; apply N.leb_le; lia).
    reflexivity.
  - replace (97 <=? 87 + d)%N with true by (symmetry; apply N.leb_le; lia).
    replace (87 + d <=? 122)%N with true by (symmetry; apply N.leb_le; lia).
    now rewrite orb_true_r.
Qed.

Lemma fraction_digits_ok den : (0 < den)%N -> forall fuel num,
  (num < den)%N -> forallb is_digit36 (fraction_digits fuel num den) = true.
Proof.
  intros Hden. induction fuel as [|fuel IH]; intros num Hnum;
    cbn [fraction_digits].
  - reflexivity.
  - destruct (num =? 0)%N; [reflexivity|]. cbn [forallb].
    rewrite digit36_ok.
    + now rewrite IH by (apply N.mod_lt; lia).
    + apply N.Div0.div_lt_upper_bound. lia.
Qed.

(** The expansion is complete: the fuel [toString36] gives is enough, more
    fuel writes no further digit. *)
Lemma fraction_digits_stable den : (0 < den)%N -> forall fuel num extra,
  (num < den)%N -> (den | num * 36 ^ N.of_nat fuel)%N ->
  fraction_digits (fuel + extra) num den = fraction_digits fuel num den.
Proof.
  intros Hden. induction fuel as [|fuel IH]; intros num extra Hnum Hdiv.
  - simpl in Hdiv. rewrite N.mul_1_r in Hdiv.
    assert (num = 0%N) as ->.
    { destruct Hdiv as [q Hq]. destruct q; [now simpl in Hq|]. nia. }
    simpl. now destruct extra.
  - cbn [Nat.add fraction_digits]. destruct (num =? 0)%N; [reflexivity|].
    f_equal. apply IH; [apply N.mod_lt; lia|].
    rewrite Nat2N.inj_succ, N.pow_succ_r' in Hdiv.
    apply N.Lcm0.mod_divide in Hdiv. apply N.Lcm0.mod_divide.
    rewrite N.Div0.mul_mod_idemp_l.
    now rewrite N.mul_assoc, (N.mul_comm num 36) in Hdiv.
Qed.

Lemma toString36_fuel_enough r extra :
  let den := (2 ^ exponent r)%N in
  fraction_digits (S (N.to_nat (exponent r)) + extra) (numerator r mod den) den =
  fraction_digits (S (N.to_nat (exponent r))) (numerator r mod den) den.
Proof.
  intros den.
  assert (Hden : (0 < den)%N)
    by (apply N.neq_0_lt_0, N.pow_nonzero; discriminate).
  apply fraction_digits_stable; [exact Hden | apply N.mod_lt; lia |].
  apply N.divide_mul_r.
  rewrite Nat2N.inj_succ, N2Nat.id.
  exists (36 * 18 ^ exponent r)%N. unfold den.
  assert (H36 : (36 ^ exponent r = 2 ^ exponent r * 18 ^ exponent r)%N)
    by now rewrite <- N.pow_mul_l.
  rewrite N.pow_succ_r', H36. ring.
Qed.

Lemma forallb_firstn (A : Type) (p : A -> bool) : forall n l,
  forallb p l = true -> forallb p (firstn n l) = true.
Proof.
  induction n as [|n IH]; intros [|x l]; simpl; try reflexivity.
  intros H. apply andb_prop in H. destruct H as [-> Hl]. now apply IH.
Qed.

(** The suffix [Math.random().toString(36).substring(2, 5)]: at most three
    lowercase base-36 digits. *)
Lemma random_suffix_ok r :
  (length (substring 2 5 (toString36 r)) <= 3)%nat /\
  forallb is_digit36 (substring 2 5 (toString36 r)) = true.
Proof.
  split; [apply firstn_le_length|].
  unfold substring, toString36.
  destruct (numerator r mod 2 ^ exponent r =? 0)%N; [reflexivity|].
  change (skipn 2 (js "0." ++ ?l)) with l.
  set (digits := fraction_digits _ _ _).
  assert (Hall : forallb is_digit36 digits = true).
  { apply fraction_digits_ok.
    - apply N.neq_0_lt_0, N.pow_nonzero. discriminate.
    - apply N.mod_lt, N.pow_nonzero. discriminate. }
  now apply forallb_firstn.
Qed.

(** Two draws with a short expansion: [0] is written ["0"] and [0.5] is
    written ["0.i"]. *)
Example random_suffix_of_zero : substring 2 5 (toString36 zero) = [].
Proof. reflexivity. Qed.

Example random_suffix_of_one_half : substring 2 5 (toString36 one_half) = js "i".
Proof. reflexivity. Qed.

Lemma renamed_longer f r : renamed f r <> File.name f.
Proof.
  unfold renamed. intros H. apply (f_equal (@length _)) in H.
  rewrite !length_app in H. simpl in H. lia.
Qed.

(** C3 (as amended). When two files with the same name are uploaded one
    after the other, the two stored records have distinct names, and the
    name of the second is the original name, a hyphen and a suffix of at
    most three characters, each a lowercase base-36 digit. *)
Theorem second_upload_renamed
    f1 f2 dbName dbVersion objectStoreName w u1 w1 u2 w2 :
  File.name f1 = File.name f2 ->
  uploadFile (Some f1) dbName dbVersion objectStoreName w = (Returned u1, w1) ->
  uploadFile (Some f2) dbName dbVersion objectStoreName w1 = (Returned u2, w2) ->
  Upload.name u1 <> Upload.name u2 /\
  exists suffix,
    Upload.name u2 = File.name f2 ++ [HYPHEN] ++ suffix /\
    (length suffix <= 3)%nat /\
    forallb is_digit36 suffix = true.
Proof.
  intros Hname H1 H2.
  apply uploadFile_returned_inv in H1. cbv zeta in H1.
  destruct H1 as (Hu1 & Hfree1 & Hstored1).
  apply uploadFile_returned_inv in H2. cbv zeta in H2.
  destruct H2 as (Hu2 & Hfree2 & Hstored2).
  rewrite Hstored1 in Hu2, Hfree2.
  assert (Hkept : assoc (Upload.name u1)
                    (insert_by_key (Upload.name u1) u1
                       (stored_records w dbName objectStoreName)) = Some u1)
    by now apply assoc_insert_same.
  assert (Hfound : exists old,
            assoc (File.name f2)
              (insert_by_key (Upload.name u1) u1
                 (stored_records w dbName objectStoreName)) = Some old).
  { rewrite <- Hname.
    destruct (assoc (File.name f1) (stored_records w dbName objectStoreName))
      as [old|] eqn:E.
    - exists old. rewrite assoc_insert_other; [exact E|].
      rewrite Hu1. cbn [resolved with_name Upload.name].
      intros Heq. symmetry in Heq. now apply renamed_longer in Heq.
    - exists u1.
      replace (File.name f1) with (Upload.name u1) by now rewrite Hu1.
      exact Hkept. }
  destruct Hfound as [old Hold]. rewrite Hold in Hu2. cbn [resolved] in Hu2.
  split.
  - intros Heq. rewrite Heq in Hkept. congruence.
  - exists (substring 2 5 (toString36 (random w1 (draws w1)))).
    split; [now rewrite Hu2|]. apply random_suffix_ok.
Qed.

Lemma second_upload_renamed_witness :
  Upload.name (new_upload speed_csv) <> js "speed.csv-i" /\
  exists suffix,
    js "speed.csv-i" = js "speed.csv" ++ [HYPHEN] ++ suffix /\
    (length suffix <= 3)%nat /\
    forallb is_digit36 suffix = true.
Proof.
  exact (@second_upload_renamed speed_csv speed_csv raw_data 1%N csv_store
           (fresh_world (fun _ => one_half))
           (new_upload speed_csv)
           (snd (uploadFile (Some speed_csv) raw_data 1 csv_store
                   (fresh_world (fun _ => one_half))))
           (with_name (new_upload speed_csv) (js "speed.csv-i"))
           (snd (uploadFile (Some speed_csv) raw_data 1 csv_store
                   (snd (uploadFile (Some speed_csv) raw_data 1 csv_store
                           (fresh_world (fun _ => one_half))))))
           eq_refl eq_refl eq_refl).
Defined.

(** C3 as stated fails when the draw has a short expansion: [0.5] is
    ["0.i"] in base 36, and the second upload is stored under the original
    name, a hyphen and the single character [i]. *)
Lemma second_upload_suffix_counterexample :
  let fresh := fresh_world (fun _ => one_half) in
  let w1 := snd (uploadFile (Some speed_csv) raw_data 1 csv_store fresh) in
  fst (uploadFile (Some speed_csv) raw_data 1 csv_store fresh) =
    Returned (new_upload speed_csv) /\
  fst (uploadFile (Some speed_csv) raw_data 1 csv_store w1) =
    Returned (with_name (new_upload speed_csv)
                (js "speed.csv" ++ [HYPHEN] ++ js "i")) /\
  ~ exists suffix,
      js "speed.csv" ++ [HYPHEN] ++ js "i" =
      js "speed.csv" ++ [HYPHEN] ++ suffix /\
      length suffix = 3%nat.
Proof.
  cbv zeta. split; [reflexivity|]. split; [reflexivity|].
  intros (suffix & Heq & Hlen).
  apply (f_equal (@length _)) in Heq. rewrite !length_app, Hlen in Heq.
  discriminate Heq.
Qed.

(** ** The name lookup *)

(** C4 (the code departs from it). On a database that was never opened,
    the upgrade of [fetchFileByName] creates the store without its name
    index, and the lookup of a name throws [NotFoundError] at
    [uploadsStore.index('nameIndex')] instead of resolving to not-found;
    so does every later lookup, since the store now exists at that version.
    A lookup after an upload, whose upgrade creates the index, resolves to
    [null]; and an absent or empty name resolves at once, with no operation
    on the store. *)
Theorem fetchFileByName_fresh_database_throws :
  let cfg := {| dbName := raw_data; dbVersion := 1; objectStoreName := csv_store |} in
  let fresh := fresh_world (fun _ => one_half) in
  fst (fetchFileByName (Some (js "speed.csv")) cfg fresh) =
    Thrown (DOMException "NotFoundError") /\
  fst (fetchFileByName (Some (js "speed.csv")) cfg
         (snd (fetchFileByName (Some (js "speed.csv")) cfg fresh))) =
    Thrown (DOMException "NotFoundError") /\
  fst (fetchFileByName (Some (js "other.csv")) cfg
         (snd (uploadFile (Some speed_csv) raw_data 1 csv_store fresh))) =
    Returned Null /\
  (forall w, fetchFileByName None cfg w = (Returned Undefined, w)) /\
  (forall w, fetchFileByName (Some []) cfg w = (Returned Undefined, w)).
Proof. cbv zeta. repeat split. Qed.

(* ================================================================= *)
(** * Part III: further properties of the code *)
(* ================================================================= *)

(** ** Operations that keep the records *)

Lemma assoc_set_other A k k' (a : A) l :
  k' <> k -> assoc k' (assoc_set k a l) = assoc k' l.
Proof.
  intros Hneq. induction l as [|[k0 a0] l IH]; simpl.
  - now apply jsstring_eqb_neq in Hneq as ->.
  - destruct (jsstring_eqb k k0) eqn:E; simpl.
    + apply jsstring_eqb_eq in E. subst k0.
      now apply jsstring_eqb_neq in Hneq as ->.
    + destruct (jsstring_eqb k' k0); [reflexivity | exact IH].
Qed.

Lemma assoc_app_other A k k' (a : A) l :
  k' <> k -> assoc k' (l ++ [(k, a)]) = assoc k' l.
Proof.
  intros Hneq. induction l as [|[k0 a0] l IH]; simpl.
  - now apply jsstring_eqb_neq in Hneq as ->.
  - destruct (jsstring_eqb k' k0); [reflexivity | exact IH].
Qed.

Lemma stored_records_set w name db other store :
  stored_records (snd (set_database name db w)) other store =
  if jsstring_eqb other name then records_in db store
  else stored_records w other store.
Proof.
  unfold stored_records, records_in, the_database, set_database. simpl.
  destruct (jsstring_eqb other name) eqn:E.
  - apply jsstring_eqb_eq in E. subst other. now rewrite assoc_set_same.
  - apply jsstring_eqb_neq in E. now rewrite assoc_set_other.
Qed.

Lemma keeps_records_ret A (a : A) : keeps_records (ret a).
Proof. intros w db store. reflexivity. Qed.

Lemma keeps_records_throw A e : keeps_records (@throw A e).
Proof. intros w db store. reflexivity. Qed.

Lemma keeps_records_log ev : keeps_records (log ev).
Proof. intros w db store. reflexivity. Qed.

Lemma keeps_records_bind A B (c : M A) (k : A -> M B) :
  keeps_records c -> (forall a, keeps_records (k a)) -> keeps_records (bind c k).
Proof.
  intros Hc Hk w db store. unfold bind.
  rewrite <- (Hc w db store).
  destruct (c w) as [[a|e] w1]; simpl; [apply Hk | reflexivity].
Qed.

Lemma keeps_records_with_store A h (k : IDB.object_store -> M A) :
  (forall st, keeps_records (k st)) -> keeps_records (with_store h k).
Proof.
  intros Hk w db store. unfold with_store.
  destruct (assoc _ _) as [st|]; [apply Hk | reflexivity].
Qed.

Lemma keeps_records_openDB name version upgrade :
  match upgrade with
  | Some callback => upgrade_keeps_records callback
  | None => True
  end ->
  keeps_records (openDB name version upgrade).
Proof.
  intros Hup. unfold openDB. apply keeps_records_bind; [apply keeps_records_log|].
  intros _ w db store.
  destruct (version =? 0)%N; [reflexivity|].
  destruct (version <? _)%N; [reflexivity|].
  destruct (_ <? version)%N; [|reflexivity].
  assert (Hbump : records_in (with_version version (the_database name w)) store =
                  records_in (the_database name w) store) by reflexivity.
  destruct upgrade as [callback|].
  - destruct (callback _) as [db'|e] eqn:E; [|reflexivity].
    change (snd ((set_database name db' ;;; ret name) w))
      with (snd (set_database name db' w)).
    rewrite stored_records_set.
    destruct (jsstring_eqb db name) eqn:Hdb; [|reflexivity].
    apply jsstring_eqb_eq in Hdb. subst db.
    rewrite (Hup _ _ store E). exact Hbump.
  - change (snd ((set_database name (with_version version (the_database name w))
                  ;;; ret name) w))
      with (snd (set_database name
                   (with_version version (the_database name w)) w)).
    rewrite stored_records_set.
    destruct (jsstring_eqb db name) eqn:Hdb; [|reflexivity].
    apply jsstring_eqb_eq in Hdb. now subst db.
Qed.

Lemma createObjectStore_keeps_records name :
  upgrade_keeps_records (fun db => IDB.createObjectStore db name).
Proof.
  intros db db' store. unfold IDB.createObjectStore, records_in.
  destruct (assoc name (IDB.objectStores db)) eqn:E; [discriminate|].
  intros [= <-]. simpl.
  destruct (list_eq_dec N.eq_dec store name) as [->|Hneq].
  - erewrite assoc_app_new by exact E. now rewrite E.
  - now rewrite assoc_app_other.
Qed.

Lemma uploadFile_upgrade_keeps_records name :
  upgrade_keeps_records (uploadFile_upgrade name).
Proof.
  intros db db' store. unfold uploadFile_upgrade.
  destruct (IDB.createObjectStore db name) as [db1|] eqn:E1; [|discriminate].
  intros E2. pose proof (@createObjectStore_keeps_records name) as Hc.
  rewrite <- (Hc db db1 store E1). clear Hc.
  revert E2. unfold IDB.createIndex, records_in.
  destruct (assoc name (IDB.objectStores db1)) as [st|] eqn:Est; [|discriminate].
  destruct (assoc _ (IDB.indexes st)); [discriminate|].
  intros [= <-]. simpl.
  destruct (list_eq_dec N.eq_dec store name) as [->|Hneq].
  - now rewrite assoc_set_same, Est.
  - now rewrite assoc_set_other.
Qed.

Lemma keeps_records_filterFiles_loop : forall cur q limit count items,
  keeps_records (filterFiles_loop cur q limit count items).
Proof.
  induction cur as [|[key upload] next IH]; intros q limit count items; simpl.
  - apply keeps_records_ret.
  - destruct (count <? limit)%Z; [|apply keeps_records_ret].
    apply keeps_records_bind; [apply keeps_records_log | intros _; apply IH].
Qed.

Create HintDb keeps.
#[local] Hint Resolve keeps_records_ret keeps_records_throw keeps_records_log
  keeps_records_bind keeps_records_with_store keeps_records_filterFiles_loop
  : keeps.

Lemma keeps_records_db_transaction db store mode :
  keeps_records (db_transaction db store mode).
Proof.
  unfold db_transaction. apply keeps_records_bind; [auto with keeps|].
  intros _ w d s. now destruct (assoc _ _).
Qed.

Lemma keeps_records_objectStore tx name : keeps_records (objectStore tx name).
Proof. unfold objectStore. destruct (jsstring_eqb _ _); auto with keeps. Qed.

#[local] Hint Resolve keeps_records_db_transaction keeps_records_objectStore
  : keeps.

(** X1. The three read operations never change the records of any store
    of any database, whatever they return or throw (opening may create the
    database, raise its version or, in [fetchFileByName], create an empty
    store). *)
Theorem read_operations_keep_records :
  (forall dbName dbVersion objectStoreName,
      keeps_records (getKeys dbName dbVersion objectStoreName)) /\
  (forall dbName dbVersion objectStoreName searchQuery sortField sortOrder
          offset limit,
      keeps_records (fetchFiles dbName dbVersion objectStoreName searchQuery
                       sortField sortOrder offset limit)) /\
  (forall name cfg, keeps_records (fetchFileByName name cfg)).
Proof.
  split; [|split].
  - intros d v s. unfold getKeys.
    apply keeps_records_bind; [now apply keeps_records_openDB|]. intros db.
    apply keeps_records_bind.
    + intros w d' s'. unfold objectStoreNames_contains. now destruct (assoc _ _).
    + intros known. destruct (negb known); [auto with keeps|].
      unfold store_getAllKeys. auto 8 with keeps.
  - intros d v s q sf so offset limit. unfold fetchFiles.
    apply keeps_records_bind; [now apply keeps_records_openDB|]. intros db.
    apply keeps_records_bind.
    + unfold createCursor, store_openCursor. auto 8 with keeps.
    + intros cur. unfold filterFiles. auto with keeps.
  - intros name cfg. unfold fetchFileByName.
    destruct name as [[|c name]|]; try apply keeps_records_ret.
    apply keeps_records_bind.
    { apply keeps_records_openDB, createObjectStore_keeps_records. }
    intros db. unfold console_log.
    apply keeps_records_bind; [auto with keeps|]. intros tx.
    apply keeps_records_bind; [auto with keeps|]. intros uploadsStore.
    apply keeps_records_bind.
    { unfold store_index. apply keeps_records_with_store. intros st.
      destruct (assoc _ _); auto with keeps. }
    intros index. apply keeps_records_bind.
    { unfold index_get. auto 6 with keeps. }
    intros file. destruct file; auto with keeps.
Qed.

(** ** The query engine, end to end *)

Lemma in_firstn (A : Type) n (l : list A) x : In x (firstn n l) -> In x l.
Proof.
  intros H. rewrite <- (firstn_skipn n l). apply in_or_app. now left.
Qed.

Lemma in_skipn (A : Type) n (l : list A) x : In x (skipn n l) -> In x l.
Proof.
  intros H. rewrite <- (firstn_skipn n l). apply in_or_app. now right.
Qed.

Lemma in_array_slice (A : Type) (l : list A) a b x :
  In x (array_slice l a b) -> In x l.
Proof. unfold array_slice. intros H. now apply in_firstn, in_skipn in H. Qed.

Lemma insert_sorted_permutation (A : Type) (cmp : A -> A -> Z) x l :
  Permutation (insert_sorted cmp x l) (x :: l).
Proof.
  induction l as [|y l IH]; simpl; [reflexivity|].
  destruct (0 <? cmp x y)%Z; [|reflexivity].
  rewrite IH. apply perm_swap.
Qed.

Lemma array_sort_permutation (A : Type) (cmp : A -> A -> Z) l :
  Permutation (array_sort cmp l) l.
Proof.
  induction l as [|x l IH]; simpl; [reflexivity|].
  rewrite insert_sorted_permutation. now constructor.
Qed.

Lemma sorted_if_permutation sortField sortOrder files :
  Permutation (sorted_if sortField sortOrder files) files.
Proof.
  unfold sorted_if. destruct sortField as [field|]; [|reflexivity].
  destruct (truthy (Some field)); [apply array_sort_permutation | reflexivity].
Qed.

Lemma store_openCursor_eq h w st :
  assoc (tx_store h) (IDB.objectStores (the_database (tx_db h) w)) = Some st ->
  store_openCursor h w = (Returned (IDB.records st), with_event EvOpenCursor w).
Proof.
  intros H. unfold store_openCursor, bind, log. cbv beta iota.
  now rewrite (with_store_some h _ (with_event EvOpenCursor w) H).
Qed.

Lemma createCursor_eq db store w st :
  assoc store (IDB.objectStores (the_database db w)) = Some st ->
  createCursor db store w =
  (Returned (IDB.records st),
   with_event EvOpenCursor (with_event (EvTransaction store ReadOnly) w)).
Proof.
  intros H. unfold createCursor.
  erewrite bind_returned by (eapply db_transaction_some; exact H).
  erewrite bind_returned by apply objectStore_same.
  now erewrite store_openCursor_eq by exact H.
Qed.

Lemma createCursor_none db store w :
  assoc store (IDB.objectStores (the_database db w)) = None ->
  createCursor db store w =
  (Thrown (DOMException "NotFoundError"),
   with_event (EvTransaction store ReadOnly) w).
Proof.
  intros H. unfold createCursor.
  now erewrite bind_thrown by (apply db_transaction_none; exact H).
Qed.

(** The candidates of [fetchFiles]: the matching records among the first
    [limit + offset] records of the store, sorted if a sort field is
    given. *)
Lemma fetchFiles_eq w dbName dbVersion objectStoreName searchQuery sortField
    sortOrder offset limit st :
  opens w dbName dbVersion ->
  assoc objectStoreName (IDB.objectStores (the_database dbName w)) = Some st ->
  fst (fetchFiles dbName dbVersion objectStoreName searchQuery sortField
         sortOrder offset limit w) =
  Returned
    (paginateFiles
       (sorted_if sortField sortOrder
          (filter (name_matches searchQuery)
             (map snd (firstn (Z.to_nat (limit + offset)) (IDB.records st)))))
       offset limit).
Proof.
  intros Hopen Hst. destruct (openDB_plain Hopen) as (w1 & Hw1 & Hstores).
  rewrite <- Hstores in Hst. unfold fetchFiles.
  erewrite bind_returned by exact Hw1.
  erewrite bind_returned by (eapply createCursor_eq; exact Hst).
  unfold bind.
  match goal with
  | |- context [filterFiles ?c ?q ?l ?w0] =>
      pose proof (filterFiles_scans_prefix c q l w0) as Hf;
      destruct (filterFiles c q l w0) as [o w2]
  end.
  simpl in Hf. subst o. reflexivity.
Qed.

Lemma paginateFiles_length (files : list Upload.t) offset limit :
  (length files <= Z.to_nat (limit + offset))%nat ->
  (length (paginateFiles files offset limit) <= Z.to_nat limit)%nat.
Proof.
  intros Hlen. unfold paginateFiles, array_slice.
  etransitivity; [apply firstn_le_length|].
  set (len := Z.of_nat (length files)) in *.
  assert (Hl : (0 <= len)%Z) by (unfold len; lia).
  assert (Hb : (len <= Z.max 0 (limit + offset))%Z) by (unfold len; lia).
  clearbody len. rewrite Z.gtb_ltb.
  destruct (Z.ltb_spec offset 0);
    repeat match goal with
    | |- context [(?a <? ?b)%Z] => destruct (Z.ltb_spec a b)
    end; lia.
Qed.

(** X2. [fetchFiles] never returns more than [limit] records (none for a
    limit that is not positive), whatever the store, the query, the sort
    and the offset. *)
Theorem fetchFiles_at_most_limit w dbName dbVersion objectStoreName
    searchQuery sortField sortOrder offset limit st :
  opens w dbName dbVersion ->
  assoc objectStoreName (IDB.objectStores (the_database dbName w)) = Some st ->
  exists files,
    fst (fetchFiles dbName dbVersion objectStoreName searchQuery sortField
           sortOrder offset limit w) = Returned files /\
    (length files <= Z.to_nat limit)%nat.
Proof.
  intros Hopen Hst. eexists. split; [eapply fetchFiles_eq; eassumption|].
  apply paginateFiles_length.
  rewrite (Permutation_length (sorted_if_permutation _ _ _)).
  etransitivity; [apply filter_length_le|].
  rewrite length_map. apply firstn_le_length.
Qed.

(** X3. Every record [fetchFiles] returns is a record of the store; and
    when the query and the name of the record are of the Basic Latin
    block, the name matches the query: lower-cased, it contains the
    lower-cased query. *)
Theorem fetchFiles_sound w dbName dbVersion objectStoreName
    searchQuery sortField sortOrder offset limit st files :
  opens w dbName dbVersion ->
  assoc objectStoreName (IDB.objectStores (the_database dbName w)) = Some st ->
  fst (fetchFiles dbName dbVersion objectStoreName searchQuery sortField
         sortOrder offset limit w) = Returned files ->
  forall file, In file files ->
    In file (map snd (IDB.records st)) /\
    (basic_latin_query searchQuery -> basic_latin (Upload.name file) ->
     name_matches searchQuery file = true).
Proof.
  intros Hopen Hst Hret file Hin.
  rewrite (fetchFiles_eq _ _ _ _ _ _ Hopen Hst) in Hret.
  injection Hret as <-. unfold paginateFiles in Hin.
  apply in_array_slice in Hin.
  apply (Permutation_in _ (sorted_if_permutation _ _ _)) in Hin.
  apply filter_In in Hin. destruct Hin as [Hin Hmatch].
  split; [|intros _ _; exact Hmatch].
  rewrite in_map_iff in *. destruct Hin as (entry & Heq & Hentry).
  exists entry. split; [exact Heq | now apply in_firstn in Hentry].
Qed.

Lemma filter_none (A : Type) (f : A -> bool) l :
  (forall x, In x l -> f x = false) -> filter f l = [].
Proof.
  induction l as [|x l IH]; intros H; simpl; [reflexivity|].
  rewrite (H x (or_introl eq_refl)). apply IH.
  intros y Hy. apply H. now right.
Qed.

(** X4. For a query and stored names of the Basic Latin block: when no
    stored name matches the query, [fetchFiles] returns the empty
    sequence. *)
Theorem fetchFiles_no_match w dbName dbVersion objectStoreName
    searchQuery sortField sortOrder offset limit st :
  opens w dbName dbVersion ->
  assoc objectStoreName (IDB.objectStores (the_database dbName w)) = Some st ->
  basic_latin_query searchQuery ->
  (forall key file, In (key, file) (IDB.records st) ->
                    basic_latin (Upload.name file) /\
                    name_matches searchQuery file = false) ->
  fst (fetchFiles dbName dbVersion objectStoreName searchQuery sortField
         sortOrder offset limit w) = Returned [].
Proof.
  intros Hopen Hst _ Hnone.
  rewrite (fetchFiles_eq _ _ _ _ _ _ Hopen Hst). f_equal.
  replace (filter (name_matches searchQuery) _) with (@nil Upload.t).
  - replace (sorted_if sortField sortOrder []) with (@nil Upload.t).
    + unfold paginateFiles, array_slice. now rewrite skipn_nil, firstn_nil.
    + unfold sorted_if. destruct sortField as [field|]; [|reflexivity].
      now destruct (truthy (Some field)).
  - symmetry. apply filter_none. intros file Hin.
    apply in_map_iff in Hin. destruct Hin as ([key file'] & Heq & Hentry).
    simpl in Heq. subst file'. apply in_firstn in Hentry.
    now apply (Hnone key file).
Qed.

Lemma filter_all (A : Type) (f : A -> bool) l :
  (forall x, In x l -> f x = true) -> filter f l = l.
Proof.
  induction l as [|x l IH]; intros H; simpl; [reflexivity|].
  rewrite (H x (or_introl eq_refl)). f_equal. apply IH.
  intros y Hy. apply H. now right.
Qed.

(** X5. With an empty or absent query and no sort field, [fetchFiles]
    returns the records of the store from position [offset] on, at most
    [limit] of them, in key order (for an offset and a limit that are not
    negative). *)
Theorem fetchFiles_plain_page w dbName dbVersion objectStoreName
    searchQuery sortOrder offset limit st :
  opens w dbName dbVersion ->
  assoc objectStoreName (IDB.objectStores (the_database dbName w)) = Some st ->
  truthy searchQuery = false ->
  (0 <= offset)%Z -> (0 <= limit)%Z ->
  fst (fetchFiles dbName dbVersion objectStoreName searchQuery None
         sortOrder offset limit w) =
  Returned (page (map snd (IDB.records st)) offset limit).
Proof.
  intros Hopen Hst Hquery Hoffset Hlimit.
  rewrite (fetchFiles_eq _ _ _ _ _ _ Hopen Hst). f_equal.
  cbn [sorted_if]. rewrite filter_all.
  - rewrite paginateFiles_page by exact Hlimit.
    rewrite Z.max_r by exact Hoffset. unfold page.
    rewrite !skipn_map, !firstn_map. f_equal.
    replace (Z.to_nat (limit + offset))
      with (Z.to_nat offset + Z.to_nat limit)%nat by lia.
    rewrite <- firstn_skipn_comm, firstn_firstn.
    now rewrite Nat.min_id.
  - intros file _. now destruct searchQuery as [[|c q]|].
Qed.

(** X6. On a database that opens but has no such store, [fetchFiles] does
    not return the empty sequence as [getKeys] does: it throws
    [NotFoundError]. *)
Theorem fetchFiles_missing_store w dbName dbVersion objectStoreName
    searchQuery sortField sortOrder offset limit :
  opens w dbName dbVersion ->
  assoc objectStoreName (IDB.objectStores (the_database dbName w)) = None ->
  fst (fetchFiles dbName dbVersion objectStoreName searchQuery sortField
         sortOrder offset limit w) = Thrown (DOMException "NotFoundError").
Proof.
  intros Hopen Hst. destruct (openDB_plain Hopen) as (w1 & Hw1 & Hstores).
  rewrite <- Hstores in Hst. unfold fetchFiles.
  erewrite bind_returned by exact Hw1.
  now erewrite bind_thrown by (apply createCursor_none; exact Hst).
Qed.

(** ** The upload pipeline and the store *)

Lemma valid_file_store f content dbName dbVersion objectStoreName w :
  valid_file f content ->
  uploadFile (Some f) dbName dbVersion objectStoreName w =
  uploadFile_store f dbName dbVersion objectStoreName
    (with_event EvReadAsText w).
Proof.
  intros (Hsize & Hext & Htext & Hformat).
  rewrite uploadFile_unfold, Z.gtb_ltb, extension_test_spec, Hext.
  replace (MAX_SIZE <? File.size f)%Z with false
    by (symmetry; apply Z.ltb_ge; exact Hsize).
  unfold bind at 1. cbn [negb]. cbv beta iota.
  now rewrite readFile_eq, Htext, Hformat.
Qed.

(** Opening for an upload: either the stores are what they were, or the
    upgrade ran and created the store, which did not exist. *)
Lemma openDB_upload_stores w dbName dbVersion objectStoreName h w1 :
  openDB dbName dbVersion (Some (uploadFile_upgrade objectStoreName)) w =
    (Returned h, w1) ->
  h = dbName /\
  IDB.version (the_database dbName w1) = dbVersion /\
  random w1 = random w /\ draws w1 = draws w /\
  (IDB.objectStores (the_database dbName w1) =
     IDB.objectStores (the_database dbName w) \/
   assoc objectStoreName (IDB.objectStores (the_database dbName w)) = None /\
   assoc objectStoreName (IDB.objectStores (the_database dbName w1)) =
     Some created_store).
Proof.
  unfold openDB, bind, log. cbv beta iota.
  change (the_database dbName (with_event (EvOpenDB dbName dbVersion) w))
    with (the_database dbName w).
  destruct (dbVersion =? 0)%N; [discriminate|].
  destruct (N.ltb_spec dbVersion (IDB.version (the_database dbName w)));
    [discriminate|].
  destruct (N.ltb_spec (IDB.version (the_database dbName w)) dbVersion).
  - unfold uploadFile_upgrade, IDB.createObjectStore, IDB.createIndex.
    cbn [with_version IDB.objectStores IDB.version].
    destruct (assoc objectStoreName (IDB.objectStores (the_database dbName w)))
      as [st|] eqn:E; [discriminate|].
    cbn [IDB.objectStores IDB.version].
    erewrite assoc_app_new by exact E. cbn [IDB.indexes assoc IDB.records app].
    intros [= <- <-]. split; [reflexivity|].
    split.
    { unfold the_database at 1. cbn [databases snd set_database ret].
      now rewrite assoc_set_same. }
    split; [reflexivity|]. split; [reflexivity|].
    right. split; [reflexivity|].
    unfold the_database at 1. cbn [databases snd set_database ret].
    rewrite assoc_set_same. cbn [IDB.objectStores].
    now rewrite assoc_set_same.
  - intros [= <- <-]. split; [reflexivity|].
    split; [apply N.le_antisymm; assumption|].
    split; [reflexivity|]. split; [reflexivity|]. now left.
Qed.

Lemma uploadFile_write_world file db objectStoreName w st :
  assoc objectStoreName (IDB.objectStores (the_database db w)) = Some st ->
  let u := resolved file (assoc (File.name file) (IDB.records st))
             (random w (draws w)) in
  exists w2,
    databases w2 = databases w /\
    uploadFile_write file db objectStoreName w =
    match assoc (Upload.name u) (IDB.records st) with
    | Some _ => (Thrown (DOMException "ConstraintError"), w2)
    | None =>
        if IDB.violates_unique st u
        then (Thrown (DOMException "ConstraintError"), w2)
        else
          (Returned u,
           snd (put_store
                  {| tx_db := db; tx_store := objectStoreName;
                     tx_mode := ReadWrite |}
                  {| IDB.records :=
                       insert_by_key (Upload.name u) u (IDB.records st);
                     IDB.indexes := IDB.indexes st |} w2))
    end.
Proof.
  intros Hst u. unfold uploadFile_write.
  erewrite bind_returned by (eapply db_transaction_some; exact Hst).
  erewrite bind_returned by apply objectStore_same.
  erewrite bind_returned by (eapply store_get_eq; exact Hst).
  set (h := {| tx_db := db; tx_store := objectStoreName; tx_mode := ReadWrite |}).
  set (w1 := with_event (EvGet (File.name file))
               (with_event (EvTransaction objectStoreName ReadWrite) w)).
  assert (Hst1 : forall w', databases w' = databases w1 ->
            assoc (tx_store h) (IDB.objectStores (the_database (tx_db h) w')) =
            Some st).
  { intros w' Hw'. unfold the_database. rewrite Hw'. exact Hst. }
  subst u. destruct (assoc (File.name file) (IDB.records st)) as [old|];
    cbn [resolved].
  - unfold bind at 1. unfold bind at 1. rewrite Math_random_eq.
    unfold console_log, log, bind at 1. cbv beta iota. cbn [ret].
    cbv beta iota. unfold bind.
    match goal with
    | |- context [store_add h ?v ?k ?w'] =>
        rewrite (@store_add_eq h v k w' st (Hst1 w' eq_refl) eq_refl);
        exists (with_event (EvAdd k) w')
    end.
    split; [reflexivity|].
    destruct (assoc _ (IDB.records st)); [reflexivity|].
    destruct (IDB.violates_unique st _); [reflexivity|].
    unfold put_store, set_database, ret. reflexivity.
  - unfold bind at 1. cbn [ret]. cbv beta iota. unfold bind.
    match goal with
    | |- context [store_add h ?v ?k ?w'] =>
        rewrite (@store_add_eq h v k w' st (Hst1 w' eq_refl) eq_refl);
        exists (with_event (EvAdd k) w')
    end.
    split; [reflexivity|].
    destruct (assoc _ (IDB.records st)); [reflexivity|].
    destruct (IDB.violates_unique st _); [reflexivity|].
    unfold put_store, set_database, ret. reflexivity.
Qed.

Lemma stored_records_databases w w' :
  databases w' = databases w ->
  forall db store, stored_records w' db store = stored_records w db store.
Proof.
  intros H db store. unfold stored_records, the_database. now rewrite H.
Qed.

Lemma stored_records_put_other h st w db store :
  (db, store) <> (tx_db h, tx_store h) ->
  stored_records (snd (put_store h st w)) db store = stored_records w db store.
Proof.
  intros Hneq. unfold put_store. rewrite stored_records_set.
  destruct (jsstring_eqb db (tx_db h)) eqn:E; [|reflexivity].
  apply jsstring_eqb_eq in E. subst db.
  unfold records_in, stored_records. simpl.
  rewrite assoc_set_other; [reflexivity|]. intros ->. now apply Hneq.
Qed.

(** What [uploadFile] does to the records, for every file and world:
    nothing when it throws; when it returns, it adds the returned record
    under its name, a key that was free, to the store it was given and
    leaves the other stores alone. *)
Lemma uploadFile_records file dbName dbVersion objectStoreName w :
  let result := uploadFile file dbName dbVersion objectStoreName w in
  match fst result with
  | Thrown _ =>
      forall db store,
        stored_records (snd result) db store = stored_records w db store
  | Returned u =>
      assoc (Upload.name u) (stored_records w dbName objectStoreName) = None /\
      stored_records (snd result) dbName objectStoreName =
        insert_by_key (Upload.name u) u
          (stored_records w dbName objectStoreName) /\
      forall db store, (db, store) <> (dbName, objectStoreName) ->
        stored_records (snd result) db store = stored_records w db store
  end.
Proof.
  cbv zeta.
  destruct (uploadFile file dbName dbVersion objectStoreName w) as [o w']
    eqn:E.
  cbn [fst snd].
  destruct file as [f|]; [|injection E as <- <-; intros db store; reflexivity].
  rewrite uploadFile_unfold in E.
  destruct (File.size f >? MAX_SIZE)%Z;
    [injection E as <- <-; intros db store; reflexivity|].
  destruct (negb (RegExp.test extension_flags _ _));
    [injection E as <- <-; intros db store; reflexivity|].
  unfold bind at 1 in E. rewrite readFile_eq in E.
  destruct (File.text f) as [content|];
    [|injection E as <- <-; intros db store; reflexivity].
  destruct (negb (RegExp.test format_flags _ _));
    [injection E as <- <-; intros db store; reflexivity|].
  set (w0 := after_validation bad_content w) in *.
  assert (Hopen : forall db store,
            stored_records
              (snd (openDB dbName dbVersion
                      (Some (uploadFile_upgrade objectStoreName)) w0)) db store =
            stored_records w db store).
  { intros db store.
    now rewrite (@keeps_records_openDB dbName dbVersion
                   (Some (uploadFile_upgrade objectStoreName))
                   (@uploadFile_upgrade_keeps_records objectStoreName)
                   w0 db store). }
  unfold uploadFile_store, bind at 1 in E.
  destruct (openDB dbName dbVersion _ w0) as [[h|e] w1] eqn:Eo;
    [|injection E as <- <-; exact Hopen].
  simpl snd in Hopen. apply openDB_upload_stores in Eo. destruct Eo as (-> & _).
  destruct (assoc objectStoreName (IDB.objectStores (the_database dbName w1)))
    as [st|] eqn:Est.
  - destruct (uploadFile_write_world f dbName objectStoreName w1 Est)
      as (w2 & Hdb & Heq).
    cbv zeta in Heq. rewrite Heq in E. clear Heq.
    assert (Hrecs : IDB.records st = stored_records w dbName objectStoreName).
    { rewrite <- Hopen. unfold stored_records. now rewrite Est. }
    assert (Hw2 : forall db store,
              stored_records w2 db store = stored_records w db store).
    { intros db store. rewrite <- Hopen. now apply stored_records_databases. }
    destruct (assoc (Upload.name _) (IDB.records st)) eqn:Hfree;
      [injection E as <- <-; exact Hw2|].
    destruct (IDB.violates_unique st _); [injection E as <- <-; exact Hw2|].
    injection E as <- <-. rewrite <- Hrecs. split; [exact Hfree|]. split.
    + exact (stored_records_put
               {| tx_db := dbName; tx_store := objectStoreName;
                  tx_mode := ReadWrite |} _ w2).
    + intros db store Hneq. rewrite <- Hw2.
      exact (@stored_records_put_other
               {| tx_db := dbName; tx_store := objectStoreName;
                  tx_mode := ReadWrite |} _ w2 db store Hneq).
  - unfold uploadFile_write in E.
    erewrite bind_thrown in E by (apply db_transaction_none; exact Est).
    injection E as <- <-. intros db store. now rewrite <- Hopen.
Qed.

(** X7. A failed upload stores nothing: whenever [uploadFile] throws,
    be it a validation error, a reader error or an error of the engine, the
    records of every store are what they were. *)
Theorem uploadFile_failure_stores_nothing
    file dbName dbVersion objectStoreName w e w' :
  uploadFile file dbName dbVersion objectStoreName w = (Thrown e, w') ->
  forall db store, stored_records w' db store = stored_records w db store.
Proof.
  intros H. pose proof (uploadFile_records file dbName dbVersion objectStoreName w)
    as Hrec.
  cbv zeta in Hrec. now rewrite H in Hrec.
Qed.

(** X8. [uploadFile] never removes or replaces a stored record: a record
    stored under a key before the call, in any store, is stored under that
    key after it, whatever the call returns or throws. *)
Theorem uploadFile_keeps_existing
    file dbName dbVersion objectStoreName w db store key r :
  assoc key (stored_records w db store) = Some r ->
  assoc key
    (stored_records (snd (uploadFile file dbName dbVersion objectStoreName w))
       db store) = Some r.
Proof.
  intros Hkey.
  pose proof (uploadFile_records file dbName dbVersion objectStoreName w) as Hrec.
  cbv zeta in Hrec.
  destruct (fst (uploadFile file dbName dbVersion objectStoreName w)) as [u|e].
  - destruct Hrec as (Hfree & Hstored & Hother).
    destruct (list_eq_dec N.eq_dec db dbName) as [->|Hdb];
      [destruct (list_eq_dec N.eq_dec store objectStoreName) as [->|Hstore]|].
    + rewrite Hstored, assoc_insert_other; [exact Hkey|].
      intros ->. congruence.
    + rewrite Hother; [exact Hkey|]. intros [= ?]. contradiction.
    + rewrite Hother; [exact Hkey|]. intros [= ? ?]. contradiction.
  - now rewrite Hrec.
Qed.

(** ** The order of the keys *)

Lemma jsstring_ltb_trans : forall a b c,
  jsstring_ltb a b = true -> jsstring_ltb b c = true -> jsstring_ltb a c = true.
Proof.
  induction a as [|x a IH]; intros [|y b] [|z c]; simpl; try discriminate;
    try reflexivity.
  destruct (N.ltb_spec x y), (N.ltb_spec y z), (N.ltb_spec x z);
    try reflexivity; try lia;
    destruct (N.eqb_spec x y), (N.eqb_spec y z), (N.eqb_spec x z);
    try discriminate; try lia.
  apply IH.
Qed.

Lemma jsstring_ltb_total : forall a b,
  jsstring_ltb a b = false -> a <> b -> jsstring_ltb b a = true.
Proof.
  induction a as [|x a IH]; intros [|y b]; simpl; try discriminate;
    try reflexivity; try congruence.
  destruct (N.ltb_spec x y); [discriminate|].
  destruct (N.ltb_spec y x); [reflexivity|].
  assert (x = y) as -> by lia. rewrite N.eqb_refl.
  intros Hlt Hneq. apply IH; [exact Hlt | congruence].
Qed.

Lemma jsstring_ltb_irrefl : forall a, jsstring_ltb a a = false.
Proof.
  induction a as [|x a IH]; simpl; [reflexivity|].
  now rewrite N.ltb_irrefl, N.eqb_refl.
Qed.

Lemma in_insert_by_key (A : Type) k (a : A) l entry :
  In entry (insert_by_key k a l) <-> entry = (k, a) \/ In entry l.
Proof.
  induction l as [|[k' a'] l IH]; simpl.
  - intuition.
  - destruct (jsstring_ltb k k'); simpl; [intuition|].
    rewrite IH. intuition.
Qed.

Lemma insert_by_key_ascending (A : Type) k (a : A) l :
  keys_ascending l -> assoc k l = None -> keys_ascending (insert_by_key k a l).
Proof.
  unfold keys_ascending. induction 1 as [|[k' a'] l Hsorted IH Hall]; simpl.
  - intros _. constructor; constructor.
  - destruct (jsstring_eqb k k') eqn:E; [discriminate|]. intros Hfree.
    apply jsstring_eqb_neq in E.
    destruct (jsstring_ltb k k') eqn:Hlt.
    + constructor; [now constructor|].
      constructor; [exact Hlt|].
      rewrite Forall_forall in *. intros entry Hin.
      apply (jsstring_ltb_trans _ _ _ Hlt). now apply Hall.
    + constructor; [now apply IH|].
      rewrite Forall_forall in *. intros entry Hin.
      apply in_insert_by_key in Hin. destruct Hin as [->|Hin].
      * simpl. apply jsstring_ltb_total; [exact Hlt | exact E].
      * now apply Hall.
Qed.

(** X9. [uploadFile] keeps two invariants of the store it writes to: the
    records stay in strictly ascending key order (so no key occurs twice),
    and every record stays stored under its own name. *)
Theorem uploadFile_keeps_invariants file dbName dbVersion objectStoreName w :
  keys_ascending (stored_records w dbName objectStoreName) ->
  keys_are_names (stored_records w dbName objectStoreName) ->
  keys_ascending
    (stored_records (snd (uploadFile file dbName dbVersion objectStoreName w))
       dbName objectStoreName) /\
  keys_are_names
    (stored_records (snd (uploadFile file dbName dbVersion objectStoreName w))
       dbName objectStoreName).
Proof.
  intros Hsorted Hnames.
  pose proof (uploadFile_records file dbName dbVersion objectStoreName w) as Hrec.
  cbv zeta in Hrec.
  destruct (fst (uploadFile file dbName dbVersion objectStoreName w)) as [u|e].
  - destruct Hrec as (Hfree & -> & _). split.
    + now apply insert_by_key_ascending.
    + intros k r Hin. apply in_insert_by_key in Hin.
      destruct Hin as [[= -> ->]|Hin]; [reflexivity | now apply Hnames].
  - now rewrite Hrec.
Qed.

(** ** The gateway *)

Lemma openDB_at_version w name version upgrade :
  (0 < version)%N ->
  IDB.version (the_database name w) = version ->
  openDB name version upgrade w =
  (Returned name, with_event (EvOpenDB name version) w).
Proof.
  intros Hpos Hv. unfold openDB, bind, log. cbv beta iota.
  change (the_database name (with_event (EvOpenDB name version) w))
    with (the_database name w).
  destruct (N.eqb_spec version 0); [lia|].
  now rewrite Hv, N.ltb_irrefl.
Qed.

Lemma openDB_plain_version w dbName dbVersion :
  opens w dbName dbVersion ->
  exists w1,
    openDB dbName dbVersion None w = (Returned dbName, w1) /\
    IDB.objectStores (the_database dbName w1) =
      IDB.objectStores (the_database dbName w) /\
    IDB.version (the_database dbName w1) = dbVersion.
Proof.
  intros [Hpos Hle]. unfold openDB, bind, log. cbv beta iota.
  change (the_database dbName (with_event (EvOpenDB dbName dbVersion) w))
    with (the_database dbName w).
  destruct (N.eqb_spec dbVersion 0); [lia|].
  destruct (N.ltb_spec dbVersion (IDB.version (the_database dbName w))); [lia|].
  destruct (N.ltb_spec (IDB.version (the_database dbName w)) dbVersion).
  - eexists. split; [reflexivity|]. split.
    + unfold the_database at 1. cbn [databases snd set_database ret].
      now rewrite assoc_set_same.
    + unfold the_database at 1. cbn [databases snd set_database ret].
      now rewrite assoc_set_same.
  - eexists. split; [reflexivity|]. split; [reflexivity|].
    apply N.le_antisymm; assumption.
Qed.

(** At the requested version without the store, a valid upload fails. *)
Lemma uploadFile_store_missing f content dbName dbVersion objectStoreName w :
  valid_file f content ->
  (0 < dbVersion)%N ->
  IDB.version (the_database dbName w) = dbVersion ->
  assoc objectStoreName (IDB.objectStores (the_database dbName w)) = None ->
  fst (uploadFile (Some f) dbName dbVersion objectStoreName w) =
  Thrown (DOMException "NotFoundError").
Proof.
  intros Hvalid Hpos Hv Hst.
  rewrite (valid_file_store _ _ _ _ Hvalid). unfold uploadFile_store.
  erewrite bind_returned by (apply openDB_at_version; [exact Hpos | exact Hv]).
  now apply uploadFile_write_none.
Qed.

(** X10. The store is created by the upgrade of [uploadFile] only. Once
    [getKeys] or [fetchFiles] has opened a database that has no such store
    (one that did not exist, for instance), the database is at the requested
    version and the upgrade never runs: every later upload of a valid file
    at that version throws [NotFoundError]. *)
Theorem upload_after_read_of_missing_store
    w dbName dbVersion objectStoreName f content
    searchQuery sortField sortOrder offset limit :
  opens w dbName dbVersion ->
  assoc objectStoreName (IDB.objectStores (the_database dbName w)) = None ->
  valid_file f content ->
  fst (uploadFile (Some f) dbName dbVersion objectStoreName
         (snd (getKeys dbName dbVersion objectStoreName w))) =
    Thrown (DOMException "NotFoundError") /\
  fst (uploadFile (Some f) dbName dbVersion objectStoreName
         (snd (fetchFiles dbName dbVersion objectStoreName searchQuery
                 sortField sortOrder offset limit w))) =
    Thrown (DOMException "NotFoundError").
Proof.
  intros Hopen Hst Hvalid.
  destruct (openDB_plain_version Hopen) as (w1 & Hw1 & Hstores & Hv).
  rewrite <- Hstores in Hst. destruct Hopen as [Hpos _].
  split.
  - unfold getKeys. erewrite bind_returned by exact Hw1.
    erewrite bind_returned by apply objectStoreNames_contains_eq.
    rewrite Hst. cbn [negb ret snd].
    exact (@uploadFile_store_missing f content dbName dbVersion
             objectStoreName w1 Hvalid Hpos Hv Hst).
  - unfold fetchFiles. erewrite bind_returned by exact Hw1.
    erewrite bind_thrown by (apply createCursor_none; exact Hst).
    cbn [snd].
    exact (@uploadFile_store_missing f content dbName dbVersion
             objectStoreName
             (with_event (EvTransaction objectStoreName ReadOnly) w1)
             Hvalid Hpos Hv Hst).
Qed.

(** ** The name lookup *)

Lemma index_lookup_by_name name l :
  keys_are_names l ->
  option_map snd (find (IDB.has_index_key (js "name") (VString name)) l) =
  assoc name l.
Proof.
  induction l as [|[k r] l IH]; intros Hnames; [reflexivity|].
  simpl. unfold IDB.has_index_key at 1. simpl snd.
  rewrite index_key_name. simpl jsval_eqb.
  rewrite (Hnames k r (or_introl eq_refl)).
  destruct (jsstring_eqb k name) eqn:E.
  - apply jsstring_eqb_eq in E. subst k. now rewrite jsstring_eqb_refl.
  - apply jsstring_eqb_neq in E.
    assert (Hneq : name <> k) by congruence.
    apply jsstring_eqb_neq in Hneq. rewrite Hneq. apply IH.
    intros k' r' Hin. apply Hnames. now right.
Qed.

Lemma store_index_eq h indexName w st :
  assoc (tx_store h) (IDB.objectStores (the_database (tx_db h) w)) = Some st ->
  store_index h indexName w =
  match assoc indexName (IDB.indexes st) with
  | Some ix =>
      (Returned {| ix_store := h; ix_name := indexName;
                   ix_keyPath := IDB.keyPath ix |}, w)
  | None => (Thrown (DOMException "NotFoundError"), w)
  end.
Proof.
  intros H. unfold store_index. rewrite (with_store_some h _ w H).
  now destruct (assoc indexName (IDB.indexes st)).
Qed.

Lemma fetchFileByName_resolves w cfg (name : jsstring) st :
  (0 < dbVersion cfg)%N ->
  IDB.version (the_database (dbName cfg) w) = dbVersion cfg ->
  assoc (objectStoreName cfg) (IDB.objectStores (the_database (dbName cfg) w)) =
    Some st ->
  has_name_index st ->
  keys_are_names (IDB.records st) ->
  name <> [] ->
  fst (fetchFileByName (Some name) cfg w) =
  Returned match assoc name (IDB.records st) with
           | Some file => Found file
           | None => Null
           end.
Proof.
  intros Hpos Hv Hst (ix & Hix & Hpath) Hnames Hname.
  unfold fetchFileByName. destruct name as [|c name]; [contradiction|].
  erewrite bind_returned by (apply openDB_at_version; [exact Hpos | exact Hv]).
  erewrite bind_returned by (eapply db_transaction_some; exact Hst).
  erewrite bind_returned by apply objectStore_same.
  erewrite bind_returned
    by (erewrite store_index_eq by exact Hst; rewrite Hix; reflexivity).
  unfold index_get, bind at 1 2, log. cbv beta iota.
  erewrite with_store_some by exact Hst.
  cbn [ret ix_keyPath]. rewrite Hpath, index_lookup_by_name by exact Hnames.
  now destruct (assoc (c :: name) (IDB.records st)).
Qed.

(** X11. On a store with its name index, in which every record is stored
    under its name, [fetchFileByName] resolves to the record stored under
    the name, and to [null] when there is none. *)
Theorem fetchFileByName_lookup w cfg (name : jsstring) st :
  (0 < dbVersion cfg)%N ->
  IDB.version (the_database (dbName cfg) w) = dbVersion cfg ->
  assoc (objectStoreName cfg) (IDB.objectStores (the_database (dbName cfg) w)) =
    Some st ->
  has_name_index st ->
  keys_are_names (IDB.records st) ->
  name <> [] ->
  fst (fetchFileByName (Some name) cfg w) =
  Returned match assoc name (IDB.records st) with
           | Some file => Found file
           | None => Null
           end.
Proof. apply fetchFileByName_resolves. Qed.

(** The upgrade of [fetchFileByName]: the store, without an index. *)
Lemma openDB_lookup_upgrade w name version store :
  (0 < version)%N ->
  (IDB.version (the_database name w) < version)%N ->
  assoc store (IDB.objectStores (the_database name w)) = None ->
  exists w1,
    openDB name version (Some (fun db => IDB.createObjectStore db store)) w =
      (Returned name, w1) /\
    assoc store (IDB.objectStores (the_database name w1)) =
      Some {| IDB.records := []; IDB.indexes := [] |}.
Proof.
  intros Hpos Hlt Hst. unfold openDB, bind, log. cbv beta iota.
  change (the_database name (with_event (EvOpenDB name version) w))
    with (the_database name w).
  destruct (N.eqb_spec version 0); [lia|].
  destruct (N.ltb_spec version (IDB.version (the_database name w))); [lia|].
  destruct (N.ltb_spec (IDB.version (the_database name w)) version); [|lia].
  unfold IDB.createObjectStore.
  cbn [with_version IDB.objectStores IDB.version]. rewrite Hst.
  eexists. split; [reflexivity|].
  unfold the_database at 1. cbn [databases snd set_database ret].
  rewrite assoc_set_same. cbn [IDB.objectStores]. now apply assoc_app_new.
Qed.

(** X12. Whenever the store has no name index when [fetchFileByName]
    reaches it, because the store does not exist yet (the upgrade of
    [fetchFileByName] creates it without one) or exists without one, the
    lookup of a name throws [NotFoundError]. *)
Theorem fetchFileByName_without_index w cfg (name : jsstring) :
  opens w (dbName cfg) (dbVersion cfg) ->
  match assoc (objectStoreName cfg)
          (IDB.objectStores (the_database (dbName cfg) w)) with
  | Some st =>
      IDB.version (the_database (dbName cfg) w) = dbVersion cfg /\
      assoc (js "nameIndex") (IDB.indexes st) = None
  | None => True
  end ->
  name <> [] ->
  fst (fetchFileByName (Some name) cfg w) =
  Thrown (DOMException "NotFoundError").
Proof.
  intros [Hpos Hle] Hst Hname.
  unfold fetchFileByName. destruct name as [|c name]; [contradiction|].
  destruct (assoc (objectStoreName cfg)
              (IDB.objectStores (the_database (dbName cfg) w))) as [st|] eqn:E.
  - destruct Hst as [Hv Hix].
    erewrite bind_returned by (apply openDB_at_version; [exact Hpos | exact Hv]).
    erewrite bind_returned by (eapply db_transaction_some; exact E).
    erewrite bind_returned by apply objectStore_same.
    now erewrite bind_thrown
      by (erewrite store_index_eq by exact E; rewrite Hix; reflexivity).
  - destruct (N.ltb_spec (IDB.version (the_database (dbName cfg) w))
                (dbVersion cfg)) as [Hlt|Hge].
    + destruct (@openDB_lookup_upgrade w (dbName cfg) (dbVersion cfg)
                  (objectStoreName cfg) Hpos Hlt E) as (w1 & Hw1 & Hnew).
      erewrite bind_returned by exact Hw1.
      erewrite bind_returned by (eapply db_transaction_some; exact Hnew).
      erewrite bind_returned by apply objectStore_same.
      now erewrite bind_thrown
        by (erewrite store_index_eq by exact Hnew; reflexivity).
    + assert (Hv : IDB.version (the_database (dbName cfg) w) = dbVersion cfg)
        by lia.
      erewrite bind_returned
        by (apply openDB_at_version; [exact Hpos | exact Hv]).
      now erewrite bind_thrown by (apply db_transaction_none; exact E).
Qed.

(** ** Round trips *)

Lemma openDB_returned_positive name version upgrade w h w1 :
  openDB name version upgrade w = (Returned h, w1) -> (0 < version)%N.
Proof.
  unfold openDB, bind, log. cbv beta iota.
  destruct (N.eqb_spec version 0); [discriminate | lia].
Qed.

Lemma length_insert_by_key (A : Type) k (a : A) l :
  length (insert_by_key k a l) = S (length l).
Proof.
  induction l as [|[k' a'] l IH]; simpl; [reflexivity|].
  destruct (jsstring_ltb k k'); simpl; [reflexivity | now rewrite IH].
Qed.

(** The store a successful upload leaves. *)
Lemma uploadFile_returned_store f dbName dbVersion objectStoreName w u w' :
  uploadFile (Some f) dbName dbVersion objectStoreName w = (Returned u, w') ->
  (0 < dbVersion)%N /\
  IDB.version (the_database dbName w') = dbVersion /\
  Upload.name u <> [] /\
  exists st',
    assoc objectStoreName (IDB.objectStores (the_database dbName w')) =
      Some st' /\
    IDB.records st' =
      insert_by_key (Upload.name u) u
        (stored_records w dbName objectStoreName) /\
    IDB.indexes st' =
      match assoc objectStoreName
              (IDB.objectStores (the_database dbName w)) with
      | Some st => IDB.indexes st
      | None => IDB.indexes created_store
      end.
Proof.
  rewrite uploadFile_unfold.
  destruct (File.size f >? MAX_SIZE)%Z; [discriminate|].
  destruct (RegExp.test extension_flags extension_regexp (File.name f))
    eqn:Hext; [|discriminate].
  cbn [negb]. unfold bind at 1. rewrite readFile_eq.
  destruct (File.text f) as [content|]; [|discriminate].
  destruct (negb (RegExp.test format_flags _ _)); [discriminate|].
  unfold uploadFile_store. intros H. apply bind_returned_inv in H.
  destruct H as (h & w1 & Hopen & Hwrite).
  pose proof (openDB_returned_positive _ _ _ _ Hopen) as Hpos.
  apply openDB_upload_stores in Hopen.
  destruct Hopen as (-> & Hv & Hrandom & Hdraws & Hstores).
  change (the_database dbName (after_validation bad_content w))
    with (the_database dbName w) in Hstores.
  split; [exact Hpos|].
  destruct (assoc objectStoreName (IDB.objectStores (the_database dbName w1)))
    as [st1|] eqn:E.
  2:{ pose proof (uploadFile_write_none f dbName objectStoreName w1 E) as Hnone.
      rewrite Hwrite in Hnone. discriminate. }
  destruct (uploadFile_write_world f dbName objectStoreName w1 E)
    as (w2 & Hdb & Heq).
  cbv zeta in Heq. rewrite Heq in Hwrite. clear Heq.
  destruct (assoc (Upload.name _) (IDB.records st1)) eqn:Hfree; [discriminate|].
  destruct (IDB.violates_unique st1 _); [discriminate|].
  injection Hwrite as Hu Hw'.
  assert (Hname : Upload.name u <> []).
  { rewrite <- Hu. destruct (assoc (File.name f) (IDB.records st1));
      cbn [resolved with_name new_upload Upload.name].
    - unfold renamed. intros Hnil. now apply app_eq_nil in Hnil.
    - intros Hnil. rewrite extension_test_spec, Hnil in Hext. discriminate. }
  assert (Hdb2 : the_database dbName w2 = the_database dbName w1)
    by (unfold the_database; now rewrite Hdb).
  assert (Hrecs : IDB.records st1 = stored_records w dbName objectStoreName /\
                  IDB.indexes st1 =
                  match assoc objectStoreName
                          (IDB.objectStores (the_database dbName w)) with
                  | Some st => IDB.indexes st
                  | None => IDB.indexes created_store
                  end).
  { unfold stored_records. destruct Hstores as [Hsame | [Hnone Hnew]].
    - rewrite <- Hsame, E. now split.
    - rewrite Hnone. injection Hnew as ->. now split. }
  destruct Hrecs as [Hrecs Hindexes].
  set (db2 := the_database dbName w2) in *.
  rewrite <- Hw'. unfold the_database. cbn [databases].
  rewrite assoc_set_same. cbn [IDB.version IDB.objectStores].
  subst db2. rewrite Hdb2.
  split; [exact Hv|]. split; [exact Hname|].
  eexists. split; [apply assoc_set_same|].
  cbn [IDB.records IDB.indexes]. rewrite Hu, <- Hrecs. now split.
Qed.

(** X13. Upload, then look up: after a successful upload to a store that
    has its name index (or did not exist, the upgrade then creates it with
    the index) and holds every record under its name, [fetchFileByName] of
    the name of the returned record resolves to that record. *)
Theorem upload_then_lookup f dbName dbVersion objectStoreName w u w' :
  uploadFile (Some f) dbName dbVersion objectStoreName w = (Returned u, w') ->
  keys_are_names (stored_records w dbName objectStoreName) ->
  (forall st,
      assoc objectStoreName (IDB.objectStores (the_database dbName w)) =
        Some st -> has_name_index st) ->
  fst (fetchFileByName (Some (Upload.name u))
         {| dbName := dbName; dbVersion := dbVersion;
            objectStoreName := objectStoreName |} w') =
  Returned (Found u).
Proof.
  intros Hup Hnames Hindex.
  destruct (uploadFile_returned_store _ _ _ _ _ Hup)
    as (Hpos & Hv & Hname & st' & Hst' & Hrecs & Hindexes).
  apply uploadFile_returned_inv in Hup. cbv zeta in Hup.
  destruct Hup as (_ & Hfree & _).
  rewrite (@fetchFileByName_resolves w'
             {| dbName := dbName; dbVersion := dbVersion;
                objectStoreName := objectStoreName |}
             (Upload.name u) st' Hpos Hv Hst').
  - rewrite Hrecs. now rewrite assoc_insert_same.
  - unfold has_name_index. rewrite Hindexes.
    destruct (assoc objectStoreName _) as [st|].
    + now apply Hindex.
    + eexists. split; reflexivity.
  - rewrite Hrecs. intros k r Hin. apply in_insert_by_key in Hin.
    destruct Hin as [[= -> ->]|Hin]; [reflexivity | now apply Hnames].
  - exact Hname.
Qed.

Lemma getKeys_returns w dbName dbVersion objectStoreName st :
  opens w dbName dbVersion ->
  assoc objectStoreName (IDB.objectStores (the_database dbName w)) = Some st ->
  fst (getKeys dbName dbVersion objectStoreName w) =
  Returned (map fst (IDB.records st)).
Proof.
  intros Hopen Hst. destruct (openDB_plain Hopen) as (w1 & Hw1 & Hstores).
  rewrite <- Hstores in Hst. unfold getKeys.
  erewrite bind_returned by exact Hw1.
  erewrite bind_returned by apply objectStoreNames_contains_eq.
  rewrite Hst. cbn [negb]. cbv iota.
  erewrite bind_returned by (eapply db_transaction_some; exact Hst).
  erewrite bind_returned by apply objectStore_same.
  now erewrite store_getAllKeys_eq by exact Hst.
Qed.

(** X14. Upload, then list: after a successful upload, [getKeys] returns
    the name of the returned record together with every key the store held
    before, one key more than before. *)
Theorem upload_then_getKeys f dbName dbVersion objectStoreName w u w' :
  uploadFile (Some f) dbName dbVersion objectStoreName w = (Returned u, w') ->
  exists keys,
    fst (getKeys dbName dbVersion objectStoreName w') = Returned keys /\
    In (Upload.name u) keys /\
    (forall key file,
        In (key, file) (stored_records w dbName objectStoreName) ->
        In key keys) /\
    length keys = S (length (stored_records w dbName objectStoreName)).
Proof.
  intros Hup.
  destruct (uploadFile_returned_store _ _ _ _ _ Hup)
    as (Hpos & Hv & _ & st' & Hst' & Hrecs & _).
  assert (Hopen : opens w' dbName dbVersion) by (split; [exact Hpos | lia]).
  exists (map fst (IDB.records st')).
  split; [now apply getKeys_returns|]. rewrite Hrecs. split; [|split].
  - apply in_map_iff. exists (Upload.name u, u).
    split; [reflexivity|]. apply in_insert_by_key. now left.
  - intros key file Hin. apply in_map_iff. exists (key, file).
    split; [reflexivity|]. apply in_insert_by_key. now right.
  - now rewrite length_map, length_insert_by_key.
Qed.

(** The expansion of a short draw has three digits at most: the suffix
    [substring(2, 5)] takes is all of it. *)
Lemma short_draw_whole r :
  short_draw r -> skipn 2 (toString36 r) = substring 2 5 (toString36 r).
Proof.
  destruct r as [num e]. unfold short_draw. cbn [exponent]. intros He.
  assert (Hcheck :
    forallb (fun e' =>
      forallb (fun n =>
        suffix_is_whole {| numerator := N.of_nat n; exponent := N.of_nat e' |})
        (seq 0 (2 ^ e')))
      (seq 0 7) = true) by (vm_compute; reflexivity).
  rewrite forallb_forall in Hcheck.
  assert (Hin : In (N.to_nat e) (seq 0 7)) by (apply in_seq; lia).
  specialize (Hcheck (N.to_nat e) Hin). clear Hin.
  rewrite forallb_forall in Hcheck.
  assert (Hlt : (num mod 2 ^ e < 2 ^ e)%N)
    by (apply N.mod_lt, N.pow_nonzero; discriminate).
  assert (Hin : In (N.to_nat (num mod 2 ^ e)) (seq 0 (2 ^ N.to_nat e))).
  { apply in_seq. split; [apply Nat.le_0_l|]. rewrite Nat.add_0_l.
    change 2%nat with (N.to_nat 2). rewrite <- N2Nat.inj_pow.
    revert Hlt. generalize (num mod 2 ^ e)%N (2 ^ e)%N. intros a b Hab. lia. }
  specialize (Hcheck _ Hin). clear Hin.
  unfold suffix_is_whole, jsstring_eqb in Hcheck.
  rewrite !N2Nat.id in Hcheck.
  match type of Hcheck with
  | (if ?d then _ else _) = _ => destruct d as [Heq|]; [|discriminate Hcheck]
  end.
  unfold toString36 in *. cbn [numerator exponent] in *.
  rewrite N.Div0.mod_mod in Heq. exact Heq.
Qed.

(** X15. No second try: when the name of the file is taken, and the name
    it is renamed to with the draw of [Math.random()] is taken too, the
    upload throws [ConstraintError].  The draw is a multiple of 1/64, whose
    base-36 expansion [toString(36)] prints in full. *)
Theorem uploadFile_suffix_taken
    f content dbName dbVersion objectStoreName w st old other :
  valid_file f content ->
  (0 < dbVersion)%N ->
  IDB.version (the_database dbName w) = dbVersion ->
  assoc objectStoreName (IDB.objectStores (the_database dbName w)) = Some st ->
  short_draw (random w (draws w)) ->
  assoc (File.name f) (IDB.records st) = Some old ->
  assoc (renamed f (random w (draws w))) (IDB.records st) = Some other ->
  fst (uploadFile (Some f) dbName dbVersion objectStoreName w) =
  Thrown (DOMException "ConstraintError").
Proof.
  intros Hvalid Hpos Hv Hst _ Hold Hother.
  rewrite (valid_file_store _ _ _ _ Hvalid). unfold uploadFile_store.
  erewrite bind_returned by (apply openDB_at_version; [exact Hpos | exact Hv]).
  destruct (@uploadFile_write_world f dbName objectStoreName
              (with_event (EvOpenDB dbName dbVersion)
                 (with_event EvReadAsText w)) st Hst) as (w2 & _ & Heq).
  cbv zeta in Heq. rewrite Heq. clear Heq.
  rewrite Hold. cbn [resolved with_name Upload.name random draws with_event].
  now rewrite Hother.
Qed.

(** ** Sorting *)

(** X16. [sortFiles] rearranges: its result is a permutation of its input,
    for every sort field and order; no record is dropped or repeated. *)
Theorem sortFiles_permutation files sortField sortOrder :
  Permutation (sortFiles files sortField sortOrder) files.
Proof. apply array_sort_permutation. Qed.

Section InsertionSort.
  Variable A : Type.
  Variable cmp : A -> A -> Z.
  Variable R : A -> A -> Prop.
  Hypothesis R_trans : forall x y z, R x y -> R y z -> R x z.
  Hypothesis cmp_le : forall x y, (cmp x y <= 0)%Z -> R x y.
  Hypothesis cmp_gt : forall x y, (0 < cmp x y)%Z -> R y x.

Lemma insert_sorted_sorted x l :
  StronglySorted R l -> StronglySorted R (insert_sorted cmp x l).
Proof.
  induction 1 as [|y l Hsorted IH Hall]; simpl.
  - constructor; constructor.
  - destruct (Z.ltb_spec 0 (cmp x y)) as [Hgt|Hle].
    + constructor; [exact IH|].
      rewrite Forall_forall in *. intros z Hz.
      apply (Permutation_in _ (insert_sorted_permutation cmp x l)) in Hz.
      destruct Hz as [<-|Hz]; [now apply cmp_gt | now apply Hall].
    + constructor; [now constructor|].
      constructor; [now apply cmp_le|].
      rewrite Forall_forall in *. intros z Hz.
      apply (R_trans (y := y)); [now apply cmp_le | now apply Hall].
Qed.

Lemma array_sort_sorted l : StronglySorted R (array_sort cmp l).
Proof.
  induction l as [|x l IH]; simpl; [constructor|].
  now apply insert_sorted_sorted.
Qed.

End InsertionSort.

Lemma compareFiles_numeric sortField sortOrder (val : Upload.t -> Z) a b :
  (forall u, get_property u sortField = VNumber (val u)) ->
  compareFiles sortField sortOrder a b =
  if jsstring_eqb sortOrder (js "asc")
  then if (val a <? val b)%Z then (-1)%Z
       else if (val b <? val a)%Z then 1%Z else 0%Z
  else if (val b <? val a)%Z then (-1)%Z
       else if (val a <? val b)%Z then 1%Z else 0%Z.
Proof. intros H. unfold compareFiles. now rewrite !H. Qed.

Lemma sortFiles_sorted_by files sortField sortOrder (val : Upload.t -> Z) :
  (forall u, get_property u sortField = VNumber (val u)) ->
  if jsstring_eqb sortOrder (js "asc")
  then StronglySorted (fun a b => (val a <= val b)%Z)
         (sortFiles files sortField sortOrder)
  else StronglySorted (fun a b => (val b <= val a)%Z)
         (sortFiles files sortField sortOrder).
Proof.
  intros Hval. unfold sortFiles.
  destruct (jsstring_eqb sortOrder (js "asc")) eqn:Horder;
    apply array_sort_sorted;
    try (intros x y z; lia);
    intros x y; erewrite compareFiles_numeric by exact Hval; rewrite Horder;
    destruct (Z.ltb_spec (val x) (val y)), (Z.ltb_spec (val y) (val x)); lia.
Qed.

(** X17. On a numeric field, [sortFiles] with order ["asc"] returns the
    records by non-decreasing value of the field, and with any other order
    by non-increasing value. *)
Theorem sortFiles_sorted files sortField sortOrder (val : Upload.t -> Z) :
  (forall u, get_property u sortField = VNumber (val u)) ->
  if jsstring_eqb sortOrder (js "asc")
  then StronglySorted (fun a b => (val a <= val b)%Z)
         (sortFiles files sortField sortOrder)
  else StronglySorted (fun a b => (val b <= val a)%Z)
         (sortFiles files sortField sortOrder).
Proof. apply sortFiles_sorted_by. Qed.

Lemma array_sort_all_equal (A : Type) (cmp : A -> A -> Z) l :
  (forall x y, cmp x y = 0%Z) -> array_sort cmp l = l.
Proof.
  intros Hcmp. induction l as [|x l IH]; simpl; [reflexivity|].
  rewrite IH. destruct l as [|y l]; simpl; [reflexivity|].
  now rewrite Hcmp.
Qed.

(** X18. Sorting by a field that is none of [name], [size], [type],
    [lastModified] and [annotationCount] (an unknown one, or [data]) leaves
    the order as it is, in both directions: no error is raised. *)
Theorem sortFiles_unsortable_field files sortField sortOrder :
  sortField <> js "name" -> sortField <> js "size" ->
  sortField <> js "type" -> sortField <> js "lastModified" ->
  sortField <> js "annotationCount" ->
  sortFiles files sortField sortOrder = files.
Proof.
  intros Hname Hsize Htype Hmodified Hcount.
  apply array_sort_all_equal. intros x y. unfold compareFiles, get_property.
  apply jsstring_eqb_neq in Hname, Hsize, Htype, Hmodified, Hcount.
  rewrite Hname, Hsize, Htype, Hmodified, Hcount.
  destruct (jsstring_eqb sortField (js "data"));
    now destruct (jsstring_eqb sortOrder (js "asc")).
Qed.

Lemma strongly_sorted_snoc (A : Type) (R : A -> A -> Prop) x l :
  StronglySorted R l -> Forall (fun z => R z x) l ->
  StronglySorted R (l ++ [x]).
Proof.
  induction 1 as [|y l Hsorted IH Hall]; intros Hlast; simpl.
  - constructor; constructor.
  - inversion Hlast as [|? ? Hy Hrest]; subst. constructor; [now apply IH|].
    apply Forall_app. split; [exact Hall | now constructor].
Qed.

Lemma strongly_sorted_rev (A : Type) (R : A -> A -> Prop) l :
  StronglySorted R l -> StronglySorted (fun a b => R b a) (rev l).
Proof.
  induction 1 as [|x l Hsorted IH Hall]; simpl; [constructor|].
  apply strongly_sorted_snoc; [exact IH|].
  rewrite Forall_forall in *. intros z Hz. apply Hall. now apply in_rev.
Qed.

Lemma sorted_permutation_unique (A : Type) (R : A -> A -> Prop) :
  (forall x y, R x y -> R y x -> False) ->
  forall l1 l2,
    StronglySorted R l1 -> StronglySorted R l2 -> Permutation l1 l2 -> l1 = l2.
Proof.
  intros Hasym. induction l1 as [|x l1 IH]; intros l2 H1 H2 Hperm.
  - now apply Permutation_nil in Hperm.
  - destruct l2 as [|y l2];
      [now apply Permutation_sym, Permutation_nil in Hperm|].
    inversion H1 as [|? ? Hs1 Hall1]; subst.
    inversion H2 as [|? ? Hs2 Hall2]; subst.
    rewrite Forall_forall in Hall1, Hall2.
    assert (x = y) as ->.
    { assert (Hx : In x (y :: l2))
        by (apply (Permutation_in _ Hperm); now left).
      assert (Hy : In y (x :: l1))
        by (apply (Permutation_in _ (Permutation_sym Hperm)); now left).
      destruct Hx as [->|Hx]; [reflexivity|].
      destruct Hy as [->|Hy]; [reflexivity|].
      exfalso. apply (Hasym x y); [now apply Hall1 | now apply Hall2]. }
    f_equal. apply IH; [exact Hs1 | exact Hs2 |].
    now apply Permutation_cons_inv in Hperm.
Qed.

Lemma strongly_sorted_impl (A : Type) (R R' : A -> A -> Prop) l :
  (forall a b, R a b -> R' a b) -> StronglySorted R l -> StronglySorted R' l.
Proof.
  intros Himpl. induction 1 as [|x l Hsorted IH Hall]; constructor;
    [exact IH|].
  rewrite Forall_forall in *. intros y Hy. now apply Himpl, Hall.
Qed.

Lemma strongly_sorted_strict (val : Upload.t -> Z) l :
  NoDup (map val l) ->
  StronglySorted (fun a b => (val a <= val b)%Z) l ->
  StronglySorted (fun a b => (val a < val b)%Z) l.
Proof.
  induction l as [|x l IH]; intros Hnodup Hsorted; [constructor|].
  inversion Hsorted as [|? ? Hs Hall]; subst.
  simpl in Hnodup. inversion Hnodup as [|? ? Hnotin Hnd]; subst.
  constructor; [now apply IH|].
  rewrite Forall_forall in *. intros y Hy.
  assert (val x <> val y) by (intros Heq; apply Hnotin; rewrite Heq;
                              now apply in_map).
  specialize (Hall y Hy). lia.
Qed.

(** X19. For records with pairwise distinct values of a numeric field,
    however many, sorting in a descending order returns the reverse of
    sorting in ascending order. *)
Theorem sortFiles_desc_is_reverse files sortField sortOrder
    (val : Upload.t -> Z) :
  (forall u, get_property u sortField = VNumber (val u)) ->
  NoDup (map val files) ->
  sortOrder <> js "asc" ->
  sortFiles files sortField sortOrder =
  rev (sortFiles files sortField (js "asc")).
Proof.
  intros Hval Hnodup Horder.
  assert (Hdistinct : forall order,
            NoDup (map val (sortFiles files sortField order))).
  { intros order. eapply Permutation_NoDup; [|exact Hnodup].
    apply Permutation_map, Permutation_sym, array_sort_permutation. }
  apply (@sorted_permutation_unique _ (fun a b => (val b < val a)%Z)).
  - intros x y. lia.
  - pose proof (sortFiles_sorted_by files sortField sortOrder val Hval) as Hs.
    apply jsstring_eqb_neq in Horder. rewrite Horder in Hs.
    apply (@strongly_sorted_impl _ _
             (fun a b => (- val a <= - val b)%Z)) in Hs; [|intros a b; lia].
    apply strongly_sorted_strict in Hs.
    + revert Hs. apply strongly_sorted_impl. intros a b. lia.
    + rewrite <- (map_map val Z.opp).
      apply Injective_map_NoDup; [|apply Hdistinct].
      intros a b. lia.
  - pose proof (sortFiles_sorted_by files sortField (js "asc") val Hval) as Hs.
    change (jsstring_eqb (js "asc") (js "asc")) with true in Hs. cbv iota in Hs.
    apply strongly_sorted_strict in Hs; [|apply Hdistinct].
    now apply strongly_sorted_rev in Hs.
  - rewrite <- Permutation_rev.
    etransitivity; [apply array_sort_permutation|].
    symmetry. apply array_sort_permutation.
Qed.

(** ** Pages *)

Lemma firstn_add (A : Type) : forall n m (l : list A),
  firstn (n + m) l = firstn n l ++ firstn m (skipn n l).
Proof.
  induction n as [|n IH]; intros m l; [reflexivity|].
  destruct l as [|x l]; simpl; [now rewrite firstn_nil | now rewrite IH].
Qed.

(** X20. Consecutive pages tile the list: the page of [n] items from the
    start followed by the page of [m] items at offset [n] is the page of
    [n + m] items from the start. *)
Theorem paginateFiles_pages_tile files n m :
  (0 <= n)%Z -> (0 <= m)%Z ->
  paginateFiles files 0 n ++ paginateFiles files n m =
  paginateFiles files 0 (n + m).
Proof.
  intros Hn Hm. rewrite !paginateFiles_page by lia. unfold page.
  rewrite (Z.max_r 0 n) by exact Hn. change (Z.max 0 0) with 0%Z.
  change (skipn (Z.to_nat 0) files) with files.
  now rewrite Z2Nat.inj_add, firstn_add by lia.
Qed.

(** X21. The size of a page: for an offset and a limit that are not
    negative, [paginateFiles] returns [limit] items when that many are left
    from the offset on, and otherwise the items that are left (none past
    the end). *)
Theorem paginateFiles_size files offset limit :
  (0 <= offset)%Z -> (0 <= limit)%Z ->
  length (paginateFiles files offset limit) =
  Nat.min (Z.to_nat limit) (length files - Z.to_nat offset).
Proof.
  intros Hoffset Hlimit. rewrite paginateFiles_page by exact Hlimit.
  unfold page. rewrite Z.max_r by exact Hoffset.
  now rewrite length_firstn, length_skipn.
Qed.

(** ** src/data-parsing/index.js *)

Lemma Array_includes_In array x : Array_includes array x = true <-> In x array.
Proof.
  unfold Array_includes. rewrite existsb_exists. split.
  - intros (y & Hy & Heq). apply jsstring_eqb_eq in Heq. now subst.
  - intros Hin. exists x. split; [exact Hin | apply jsstring_eqb_refl].
Qed.

Lemma keepColumns_from_length selectedFields : forall fields i,
  length (keepColumns_from i fields selectedFields) =
  length (filter (Array_includes selectedFields) fields).
Proof.
  induction fields as [|field fields IH]; intros i; simpl; [reflexivity|].
  destruct (Array_includes selectedFields field); simpl; now rewrite IH.
Qed.

(** X22. The shape of the result of [parseCSV]: one row for every line of
    the trimmed text after the first, and in every row one cell for every
    field of the header that is selected, whatever the line holds. *)
Theorem parseCSV_shape csvData selectedFields :
  let lines := split LF (trim csvData) in
  let header := split COMMA (hd [] lines) in
  length (parseCSV csvData selectedFields) = (length lines - 1)%nat /\
  forall row, In row (parseCSV csvData selectedFields) ->
    length row = length (filter (Array_includes selectedFields) header).
Proof.
  cbv zeta. unfold parseCSV. split.
  - rewrite length_map. destruct (split LF (trim csvData)); simpl; lia.
  - intros row Hrow. apply in_map_iff in Hrow.
    destruct Hrow as (line & <- & _).
    now rewrite length_map, keepColumns_from_length.
Qed.

Lemma keepColumns_from_ext s1 s2 :
  (forall x, In x s1 <-> In x s2) ->
  forall fields i, keepColumns_from i fields s1 = keepColumns_from i fields s2.
Proof.
  intros Hsame. induction fields as [|field fields IH]; intros i; simpl;
    [reflexivity|].
  assert (Heq : Array_includes s1 field = Array_includes s2 field).
  { pose proof (Array_includes_In s1 field) as H1.
    pose proof (Array_includes_In s2 field) as H2.
    specialize (Hsame field).
    destruct (Array_includes s1 field), (Array_includes s2 field);
      intuition congruence. }
  now rewrite Heq, !IH.
Qed.

Lemma keepColumns_from_In selectedFields : forall fields i j,
  In j (keepColumns_from i fields selectedFields) <->
  (i <= j)%nat /\
  exists field, nth_error fields (j - i) = Some field /\ In field selectedFields.
Proof.
  induction fields as [|f fields IH]; intros i j; simpl.
  - split; [intros [] | intros (_ & field & H & _)].
    now destruct (j - i)%nat.
  - pose proof (Array_includes_In selectedFields f) as Hinc.
    split.
    + intros H.
      assert (Hcase : (j = i /\ Array_includes selectedFields f = true) \/
                      In j (keepColumns_from (S i) fields selectedFields)).
      { destruct (Array_includes selectedFields f); [|now right].
        destruct H as [<-|H]; [now left | now right]. }
      destruct Hcase as [[-> Ht]|Hrec].
      * split; [lia|]. exists f. rewrite Nat.sub_diag. split; [reflexivity|].
        now apply Hinc.
      * apply IH in Hrec. destruct Hrec as (Hle & field & Hnth & Hsel).
        split; [lia|]. exists field. split; [|exact Hsel].
        replace (j - i)%nat with (S (j - S i)) by lia. exact Hnth.
    + intros (Hle & field & Hnth & Hsel).
      destruct (Nat.eq_dec j i) as [->|Hneq].
      * rewrite Nat.sub_diag in Hnth. injection Hnth as ->.
        apply Hinc in Hsel. rewrite Hsel. now left.
      * assert (Hrec : In j (keepColumns_from (S i) fields selectedFields)).
        { apply IH. split; [lia|]. exists field. split; [|exact Hsel].
          replace (j - i)%nat with (S (j - S i)) in Hnth by lia. exact Hnth. }
        destruct (Array_includes selectedFields f); [now right | exact Hrec].
Qed.

Lemma keepColumns_from_sorted selectedFields : forall fields i,
  StronglySorted lt (keepColumns_from i fields selectedFields).
Proof.
  induction fields as [|f fields IH]; intros i; simpl; [constructor|].
  destruct (Array_includes selectedFields f); [|apply IH].
  constructor; [apply IH|]. apply Forall_forall. intros j Hj.
  apply keepColumns_from_In in Hj. lia.
Qed.

(** X23. [parseCSV] looks at the selected fields as a set: two selections
    with the same members, in any order and with any repetition, give the
    same result.  Its columns are in the order of the header: every row
    holds the cells of the columns whose header field is selected, each
    column once, by increasing column number. *)
Theorem parseCSV_selection_as_set csvData s1 s2 :
  (forall x, In x s1 <-> In x s2) ->
  parseCSV csvData s1 = parseCSV csvData s2 /\
  exists columns,
    StronglySorted lt columns /\
    (forall j, In j columns <->
               exists field,
                 nth_error (split COMMA (hd [] (split LF (trim csvData)))) j =
                   Some field /\
                 In field s1) /\
    parseCSV csvData s1 =
    map (fun line => map (nth_error (split COMMA line)) columns)
        (tl (split LF (trim csvData))).
Proof.
  intros Hsame. split.
  - unfold parseCSV. now rewrite (@keepColumns_from_ext s1 s2 Hsame).
  - exists (keepColumns_from 0
              (split COMMA (hd [] (split LF (trim csvData)))) s1).
    split; [apply keepColumns_from_sorted|]. split; [|reflexivity].
    intros j. rewrite keepColumns_from_In, Nat.sub_0_r. split.
    + intros [_ H]. exact H.
    + intros H. split; [lia | exact H].
Qed.

Lemma split_no_separator sep s : ~ In sep s -> split sep s = [s].
Proof.
  induction s as [|c s IH]; intros Hnot; simpl; [reflexivity|].
  destruct (N.eqb_spec c sep) as [->|Hneq].
  - exfalso. apply Hnot. now left.
  - rewrite IH; [reflexivity|]. intros Hin. apply Hnot. now right.
Qed.

(** X24. A text of a single line (once trimmed), the empty text among
    them, has a header at most and gives no row. *)
Theorem parseCSV_single_line csvData selectedFields :
  ~ In LF (trim csvData) -> parseCSV csvData selectedFields = [].
Proof.
  intros Hline. unfold parseCSV.
  rewrite (split_no_separator LF (trim csvData) Hline). reflexivity.
Qed.

Lemma keepColumns_from_all selectedFields : forall fields i,
  (forall field, In field fields -> In field selectedFields) ->
  keepColumns_from i fields selectedFields = seq i (length fields).
Proof.
  induction fields as [|field fields IH]; intros i Hall; simpl; [reflexivity|].
  replace (Array_includes selectedFields field) with true.
  - f_equal. apply IH. intros f Hf. apply Hall. now right.
  - symmetry. apply Array_includes_In, Hall. now left.
Qed.

Lemma nth_error_seq (A : Type) (row : list A) : forall before,
  map (fun j => nth_error (before ++ row) j) (seq (length before) (length row)) =
  map Some row.
Proof.
  induction row as [|x row IH]; intros before; simpl; [reflexivity|].
  f_equal.
  - rewrite nth_error_app2 by lia. now rewrite Nat.sub_diag.
  - specialize (IH (before ++ [x])).
    rewrite <- app_assoc, length_app in IH. simpl in IH.
    now rewrite Nat.add_1_r in IH.
Qed.

(** X25. When every field of the header is selected and every line has as
    many cells as the header, [parseCSV] returns the cells of the lines
    after the header as they are, none [undefined]. *)
Theorem parseCSV_select_all csvData selectedFields :
  let lines := split LF (trim csvData) in
  let header := split COMMA (hd [] lines) in
  (forall field, In field header -> In field selectedFields) ->
  (forall line, In line (tl lines) ->
                length (split COMMA line) = length header) ->
  parseCSV csvData selectedFields =
  map (fun line => map Some (split COMMA line)) (tl lines).
Proof.
  cbv zeta. intros Hall Hrect. unfold parseCSV.
  rewrite keepColumns_from_all by exact Hall.
  apply map_ext_in. intros line Hline.
  rewrite <- (Hrect line Hline). apply (nth_error_seq (split COMMA line) []).
Qed.

Lemma trimStart_white ws s :
  Forall (fun c => is_white_space c = true) ws ->
  trimStart (ws ++ s) = trimStart s.
Proof.
  induction 1 as [|c ws Hc _ IH]; simpl; [reflexivity|]. now rewrite Hc.
Qed.

Lemma trimStart_cases s :
  (trimStart s = [] /\ Forall (fun c => is_white_space c = true) s) \/
  exists ws c rest,
    s = ws ++ c :: rest /\
    Forall (fun c => is_white_space c = true) ws /\
    is_white_space c = false /\ trimStart s = c :: rest.
Proof.
  induction s as [|c s IH]; [left; now split|].
  simpl. destruct (is_white_space c) eqn:E.
  - destruct IH as [[Hnil Hall] | (ws & d & rest & -> & Hws & Hd & Htrim)].
    + left. split; [exact Hnil | now constructor].
    + right. exists (c :: ws), d, rest. repeat split; auto.
  - right. now exists [], c, s.
Qed.

Lemma trim_white before s after :
  Forall (fun c => is_white_space c = true) before ->
  Forall (fun c => is_white_space c = true) after ->
  trim (before ++ s ++ after) = trim s.
Proof.
  intros Hbefore Hafter. unfold trim. rewrite trimStart_white by exact Hbefore.
  f_equal.
  assert (Hrev : Forall (fun c => is_white_space c = true) (rev after))
    by now apply Forall_rev.
  destruct (trimStart_cases s)
    as [[Hnil Hall] | (ws & c & rest & -> & Hws & Hc & Htrim)].
  - rewrite Hnil.
    rewrite <- (app_nil_r (s ++ after)), trimStart_white; [reflexivity|].
    apply Forall_app. now split.
  - rewrite Htrim, <- app_assoc, trimStart_white by exact Hws.
    simpl. rewrite Hc. change (c :: rest ++ after) with ((c :: rest) ++ after).
    now rewrite rev_app_distr, trimStart_white by exact Hrev.
Qed.

(** X26. White space and line ends around the text do not count: a final
    newline adds no row and leading blank lines are not taken for the
    header. *)
Theorem parseCSV_ignores_surrounding_space
    before csvData after selectedFields :
  Forall (fun c => is_white_space c = true) before ->
  Forall (fun c => is_white_space c = true) after ->
  parseCSV (before ++ csvData ++ after) selectedFields =
  parseCSV csvData selectedFields.
Proof.
  intros Hbefore Hafter. unfold parseCSV.
  now rewrite trim_white.
Qed.

(** ** Instances

    Each property above that has a hypothesis, at a concrete input. *)

Lemma sample_world_opens : opens sample_world raw_data 1.
Proof. split; [reflexivity | vm_compute; discriminate]. Defined.

Lemma fresh_world_opens : opens (fresh_world (fun _ => one_half)) raw_data 1.
Proof. split; [reflexivity | vm_compute; discriminate]. Defined.

Lemma two_records_are_names : keys_are_names two_records.
Proof. intros k u [[= <- <-]|[[= <- <-]|[]]]; reflexivity. Defined.

Lemma speed_csv_valid : valid_file speed_csv speed_content.
Proof.
  split; [vm_compute; discriminate|]. split; [reflexivity|].
  split; reflexivity.
Defined.

Lemma fetchFiles_at_most_limit_witness :
  exists files,
    fst (fetchFiles raw_data 1 csv_store (Some (js "b")) None (js "asc") 0 1
           sample_world) = Returned files /\
    (length files <= Z.to_nat 1)%nat.
Proof.
  apply (@fetchFiles_at_most_limit sample_world raw_data 1%N csv_store
           (Some (js "b")) None (js "asc") 0%Z 1%Z sample_store);
    [exact sample_world_opens | reflexivity].
Defined.

Lemma fetchFiles_sound_witness :
  In (stored "b.csv" 20) (map snd (IDB.records sample_store)) /\
  name_matches (Some (js "b")) (stored "b.csv" 20) = true.
Proof.
  destruct (@fetchFiles_sound sample_world raw_data 1%N csv_store
              (Some (js "b")) None (js "asc") 0%Z 2%Z sample_store
              [stored "b.csv" 20] sample_world_opens eq_refl eq_refl
              (stored "b.csv" 20) (or_introl eq_refl)) as [Hin Hmatch].
  split; [exact Hin|]. apply Hmatch; repeat constructor.
Defined.

Lemma fetchFiles_no_match_witness :
  fst (fetchFiles raw_data 1 csv_store (Some (js "zzz")) None (js "asc") 0 10
         sample_world) = Returned [].
Proof.
  apply (@fetchFiles_no_match sample_world raw_data 1%N csv_store
           (Some (js "zzz")) None (js "asc") 0%Z 10%Z sample_store);
    [exact sample_world_opens | reflexivity | repeat constructor |].
  intros key file [[= <- <-]|[[= <- <-]|[]]];
    (split; [repeat constructor | reflexivity]).
Defined.

Lemma fetchFiles_plain_page_witness :
  fst (fetchFiles raw_data 1 csv_store None None (js "asc") 1 1 sample_world) =
  Returned (page (map snd (IDB.records sample_store)) 1 1).
Proof.
  apply (@fetchFiles_plain_page sample_world raw_data 1%N csv_store
           None (js "asc") 1%Z 1%Z sample_store);
    [exact sample_world_opens | reflexivity | reflexivity
    | discriminate | discriminate].
Defined.

Lemma fetchFiles_missing_store_witness :
  fst (fetchFiles raw_data 1 csv_store None None (js "asc") 0 100
         (fresh_world (fun _ => one_half))) =
  Thrown (DOMException "NotFoundError").
Proof.
  apply (@fetchFiles_missing_store (fresh_world (fun _ => one_half))
           raw_data 1%N csv_store None None (js "asc") 0%Z 100%Z);
    [exact fresh_world_opens | reflexivity].
Defined.

Lemma uploadFile_failure_stores_nothing_witness :
  stored_records
    (snd (uploadFile (Some speed_csv) raw_data 1 csv_store twice_uploaded))
    raw_data csv_store =
  stored_records twice_uploaded raw_data csv_store.
Proof.
  apply (@uploadFile_failure_stores_nothing (Some speed_csv) raw_data 1%N
           csv_store twice_uploaded (DOMException "ConstraintError")
           (snd (uploadFile (Some speed_csv) raw_data 1 csv_store
                   twice_uploaded))).
  reflexivity.
Defined.

Lemma uploadFile_keeps_existing_witness :
  assoc (js "a.csv")
    (stored_records
       (snd (uploadFile (Some speed_csv) raw_data 1 csv_store sample_world))
       raw_data csv_store) = Some (stored "a.csv" 10).
Proof.
  apply (@uploadFile_keeps_existing (Some speed_csv) raw_data 1%N csv_store
           sample_world raw_data csv_store (js "a.csv") (stored "a.csv" 10)).
  reflexivity.
Defined.

Lemma uploadFile_keeps_invariants_witness :
  keys_ascending
    (stored_records
       (snd (uploadFile (Some speed_csv) raw_data 1 csv_store sample_world))
       raw_data csv_store) /\
  keys_are_names
    (stored_records
       (snd (uploadFile (Some speed_csv) raw_data 1 csv_store sample_world))
       raw_data csv_store).
Proof.
  apply (@uploadFile_keeps_invariants (Some speed_csv) raw_data 1%N csv_store
           sample_world).
  - repeat constructor.
  - exact two_records_are_names.
Defined.

Lemma upload_after_read_of_missing_store_witness :
  fst (uploadFile (Some speed_csv) raw_data 1 csv_store
         (snd (getKeys raw_data 1 csv_store
                 (fresh_world (fun _ => one_half))))) =
    Thrown (DOMException "NotFoundError") /\
  fst (uploadFile (Some speed_csv) raw_data 1 csv_store
         (snd (fetchFiles raw_data 1 csv_store (Some []) None (js "asc") 0 100
                 (fresh_world (fun _ => one_half))))) =
    Thrown (DOMException "NotFoundError").
Proof.
  apply (@upload_after_read_of_missing_store
           (fresh_world (fun _ => one_half)) raw_data 1%N csv_store
           speed_csv speed_content (Some []) None (js "asc") 0%Z 100%Z);
    [exact fresh_world_opens | reflexivity | exact speed_csv_valid].
Defined.

Lemma fetchFileByName_lookup_witness :
  fst (fetchFileByName (Some (js "a.csv")) sample_config sample_world) =
  Returned (Found (stored "a.csv" 10)).
Proof.
  apply (@fetchFileByName_lookup sample_world sample_config (js "a.csv")
           sample_store);
    [reflexivity | reflexivity | reflexivity
    | eexists; split; reflexivity
    | exact two_records_are_names | discriminate].
Defined.

Lemma fetchFileByName_without_index_witness :
  fst (fetchFileByName (Some (js "a.csv")) sample_config
         (fresh_world (fun _ => one_half))) =
  Thrown (DOMException "NotFoundError").
Proof.
  apply (@fetchFileByName_without_index (fresh_world (fun _ => one_half))
           sample_config (js "a.csv"));
    [exact fresh_world_opens | exact I | discriminate].
Defined.

Lemma upload_then_lookup_witness :
  fst (fetchFileByName (Some (Upload.name (new_upload speed_csv)))
         {| dbName := raw_data; dbVersion := 1; objectStoreName := csv_store |}
         (snd (uploadFile (Some speed_csv) raw_data 1 csv_store
                 (fresh_world (fun _ => one_half))))) =
  Returned (Found (new_upload speed_csv)).
Proof.
  apply (@upload_then_lookup speed_csv raw_data 1%N csv_store
           (fresh_world (fun _ => one_half)) (new_upload speed_csv)
           (snd (uploadFile (Some speed_csv) raw_data 1 csv_store
                   (fresh_world (fun _ => one_half)))));
    [reflexivity | intros k u [] | intros st H; discriminate H].
Defined.

Lemma upload_then_getKeys_witness :
  exists keys,
    fst (getKeys raw_data 1 csv_store
           (snd (uploadFile (Some speed_csv) raw_data 1 csv_store
                   sample_world))) = Returned keys /\
    In (Upload.name (new_upload speed_csv)) keys /\
    (forall key file,
        In (key, file) (stored_records sample_world raw_data csv_store) ->
        In key keys) /\
    length keys = S (length (stored_records sample_world raw_data csv_store)).
Proof.
  apply (@upload_then_getKeys speed_csv raw_data 1%N csv_store sample_world
           (new_upload speed_csv)
           (snd (uploadFile (Some speed_csv) raw_data 1 csv_store
                   sample_world))).
  reflexivity.
Defined.

Lemma uploadFile_suffix_taken_witness :
  fst (uploadFile (Some speed_csv) raw_data 1 csv_store twice_uploaded) =
  Thrown (DOMException "ConstraintError").
Proof.
  eapply (@uploadFile_suffix_taken speed_csv speed_content raw_data 1%N
            csv_store twice_uploaded);
    [exact speed_csv_valid | reflexivity | reflexivity
    | reflexivity | vm_compute; discriminate | reflexivity | reflexivity].
Defined.

Lemma sortFiles_sorted_witness :
  StronglySorted (fun a b => (Upload.size a <= Upload.size b)%Z)
    (sortFiles [stored "b.csv" 55; stored "a.csv" 41] (js "size") (js "asc")).
Proof.
  apply (@sortFiles_sorted [stored "b.csv" 55; stored "a.csv" 41]
           (js "size") (js "asc") Upload.size).
  intros u. reflexivity.
Defined.

Lemma sortFiles_unsortable_field_witness :
  sortFiles [stored "b.csv" 55; stored "a.csv" 41] (js "colour") (js "desc") =
  [stored "b.csv" 55; stored "a.csv" 41].
Proof.
  apply (@sortFiles_unsortable_field [stored "b.csv" 55; stored "a.csv" 41]
           (js "colour") (js "desc")); discriminate.
Defined.

Lemma sortFiles_desc_is_reverse_witness :
  sortFiles [stored "b.csv" 55; stored "a.csv" 41; stored "c.csv" 7]
    (js "size") (js "desc") =
  rev (sortFiles [stored "b.csv" 55; stored "a.csv" 41; stored "c.csv" 7]
         (js "size") (js "asc")).
Proof.
  apply (@sortFiles_desc_is_reverse
           [stored "b.csv" 55; stored "a.csv" 41; stored "c.csv" 7]
           (js "size") (js "desc") Upload.size).
  - intros u. reflexivity.
  - simpl. constructor; [intros [H|[H|[]]]; discriminate H|].
    constructor; [intros [H|[]]; discriminate H|].
    constructor; [intros []|]. constructor.
  - discriminate.
Defined.

Lemma paginateFiles_pages_tile_witness :
  paginateFiles [stored "a.csv" 1; stored "b.csv" 2; stored "c.csv" 3] 0 1 ++
  paginateFiles [stored "a.csv" 1; stored "b.csv" 2; stored "c.csv" 3] 1 1 =
  paginateFiles [stored "a.csv" 1; stored "b.csv" 2; stored "c.csv" 3] 0 (1 + 1).
Proof.
  apply (@paginateFiles_pages_tile
           [stored "a.csv" 1; stored "b.csv" 2; stored "c.csv" 3] 1%Z 1%Z);
    discriminate.
Defined.

Lemma paginateFiles_size_witness :
  length (paginateFiles [stored "a.csv" 1; stored "b.csv" 2; stored "c.csv" 3]
            2 5) =
  Nat.min (Z.to_nat 5) (3 - Z.to_nat 2).
Proof.
  apply (@paginateFiles_size
           [stored "a.csv" 1; stored "b.csv" 2; stored "c.csv" 3] 2%Z 5%Z);
    discriminate.
Defined.

Lemma parseCSV_shape_witness :
  length (parseCSV small_table [js "c"; js "a"]) = 2%nat /\
  length [Some (js "1"); Some (js "3")] = 2%nat.
Proof.
  destruct (parseCSV_shape small_table [js "c"; js "a"]) as [Hrows Hcells].
  split; [exact Hrows|].
  apply (Hcells [Some (js "1"); Some (js "3")]). left. reflexivity.
Defined.

Lemma parseCSV_selection_as_set_witness :
  parseCSV small_table [js "c"; js "a"] =
  parseCSV small_table [js "a"; js "c"; js "a"] /\
  exists columns,
    StronglySorted lt columns /\
    (forall j, In j columns <->
               exists field,
                 nth_error (split COMMA (hd [] (split LF (trim small_table)))) j =
                   Some field /\
                 In field [js "c"; js "a"]) /\
    parseCSV small_table [js "c"; js "a"] =
    map (fun line => map (nth_error (split COMMA line)) columns)
        (tl (split LF (trim small_table))).
Proof.
  apply (@parseCSV_selection_as_set small_table
           [js "c"; js "a"] [js "a"; js "c"; js "a"]).
  intros x. simpl. tauto.
Defined.

Lemma parseCSV_single_line_witness :
  parseCSV (js "a,b,c" ++ [LF]) [js "a"] = [].
Proof.
  apply (@parseCSV_single_line (js "a,b,c" ++ [LF]) [js "a"]).
  vm_compute. intros H.
  repeat (destruct H as [H|H]; [discriminate H|]). exact H.
Defined.

Lemma parseCSV_select_all_witness :
  parseCSV small_table [js "a"; js "b"; js "c"] =
  map (fun line => map Some (split COMMA line))
      (tl (split LF (trim small_table))).
Proof.
  apply (@parseCSV_select_all small_table [js "a"; js "b"; js "c"]).
  - intros field H. exact H.
  - intros line [<-|[<-|[]]]; reflexivity.
Defined.

Lemma parseCSV_ignores_surrounding_space_witness :
  parseCSV ([LF] ++ small_table ++ [LF; 32%N]) [js "a"] =
  parseCSV small_table [js "a"].
Proof.
  apply (@parseCSV_ignores_surrounding_space [LF] small_table [LF; 32%N]
           [js "a"]); repeat constructor.
Defined.
